(** * qcli.wad.cli: the WAD packaging command

    A shallow embedding of [src/qcli/wad/cli.py] and the properties of its
    texture pipeline: palette derivation, fullbright detection, the choice
    of mip scaling, the mip pyramid and its offsets, entry naming, archive
    opening and the handling of failures.

    Pillow ([PIL.Image]), vgio ([vgio.quake]) and the operating system are
    libraries the command calls; they appear here as an interface
    ([Imaging]) with the laws the proofs rely on, and as a small model of
    the file system and of the archive handle. *)

From Stdlib Require Import ZArith Lia Ascii String.
From stdpp Require Import base list strings gmap.

Local Open Scope nat_scope.

(** ** Python values *)

(** The only Python values whose identity matters here: [True]/[False] and
    [None], the value of a call that falls off the end of a function. *)
Inductive pyval : Type :=
| PyBool (b : bool)
| PyNone.

(** [bool(v)], the truth value Python uses in [not v], [v and ...] and
    [... if v else ...]. *)
Definition truthy (v : pyval) : bool :=
  match v with
  | PyBool b => b
  | PyNone => false
  end.

(** ** Palette registry (lines 125-137) *)

Module Palette.

(** An entry of [quake.palette]: an (r, g, b) tuple. *)
Definition rgb : Type := Z * Z * Z.

Definition black : rgb := (0, 0, 0)%Z.

Definition channels (c : rgb) : list Z :=
  let '(r, g, b) := c in [r; g; b].

(** [palette = []; for p in quake.palette: palette += p] *)
Definition flatten (table : list rgb) : list Z :=
  foldl (fun palette p => palette ++ channels p) [] table.

(** [palette[:-96] + [0] * 96]; a slice with a negative stop keeps nothing
    of a list shorter than 96. *)
Definition palette_nofb (palette : list Z) : list Z :=
  take (length palette - 96) palette ++ replicate 96 0%Z.

(** Entry [i] of a flat palette, the slice [palette[3*i : 3*i+3]]. *)
Definition entry (palette : list Z) (i : nat) : list Z :=
  take 3 (drop (3 * i) palette).

End Palette.

(** ** Images *)

(** A mode-[P] image: its size and its palette indices, row-major, which
    is also what [tobytes()] returns for it. *)
Record Indexed : Type := mkIndexed {
  iwidth : nat;
  iheight : nat;
  ipixels : list nat
}.

(** A mode-[RGB] image. *)
Record RgbImage : Type := mkRgb {
  rwidth : nat;
  rheight : nat;
  rpixels : list Palette.rgb
}.

(** [img.getpixel((x, y))] of a mode-[P] image. *)
Definition getpixel (img : Indexed) (x y : nat) : nat :=
  nth (y * iwidth img + x) (ipixels img) 0.

(** [img.tobytes()], then [struct.unpack(f'<{len(data)}B', data)]: the
    bytes of a mode-[P] image are its indices, and unpacking [n] unsigned
    bytes gives them back as integers. *)
Definition tobytes (img : Indexed) : list nat := ipixels img.

(** The pixels [range(0, height)] x [range(0, width)] visits, in order. *)
Definition scan_order (img : Indexed) : list (nat * nat) :=
  flat_map (fun y => map (fun x => (x, y)) (seq 0 (iwidth img)))
           (seq 0 (iheight img)).

Definition is_fullbright (img : Indexed) (p : nat * nat) : bool :=
  223 <? getpixel img p.1 p.2.

(** ** Fullbright detector (lines 22-28)

    Each loop returns whether [return True] was reached, together with the
    coordinates [getpixel] was called on, in call order. *)

(** [for x in range(0, img.width):
      if img.getpixel((x, y)) > 223: return True] *)
Fixpoint scan_row (img : Indexed) (y : nat) (xs : list nat)
  : bool * list (nat * nat) :=
  match xs with
  | [] => (false, [])
  | x :: xs' =>
      if 223 <? getpixel img x y then (true, [(x, y)])
      else let '(hit, seen) := scan_row img y xs' in (hit, (x, y) :: seen)
  end.

(** [for y in range(0, img.height): ...] *)
Fixpoint scan_rows (img : Indexed) (ys : list nat)
  : bool * list (nat * nat) :=
  match ys with
  | [] => (false, [])
  | y :: ys' =>
      let '(hit, seen) := scan_row img y (seq 0 (iwidth img)) in
      if hit then (true, seen)
      else let '(hit', seen') := scan_rows img ys' in (hit', seen ++ seen')
  end.

Definition has_fullbright_run (img : Indexed) : bool * list (nat * nat) :=
  scan_rows img (seq 0 (iheight img)).

(** The pixels [has_fullbright] reads. *)
Definition has_fullbright_probes (img : Indexed) : list (nat * nat) :=
  (has_fullbright_run img).2.

(** [has_fullbright(img)]: [True] from inside the loops, and [None] when
    both loops run to their end, as the function has no other [return]. *)
Definition has_fullbright (img : Indexed) : pyval :=
  if (has_fullbright_run img).1 then PyBool true else PyNone.

(** A scan of [order] that stops at its first fullbright pixel: the
    pixels read are those up to and including that pixel, or all of
    [order] when it has none. *)
Definition stops_at_first (img : Indexed) (order : list (nat * nat))
  (r : bool * list (nat * nat)) : Prop :=
  if r.1 then
    exists pre p post,
      order = pre ++ p :: post /\ r.2 = pre ++ [p] /\
      Forall (fun q => is_fullbright img q = false) pre /\
      is_fullbright img p = true
  else
    r.2 = order /\ Forall (fun q => is_fullbright img q = false) order.

(** ** The imaging library

    What the command uses of Pillow. [Picture] is an image as
    [Image.open] returns it, of any mode. *)
Class Imaging : Type := {
  Picture : Type;
  pic_width : Picture -> nat;
  pic_height : Picture -> nat;
  (** [img.mode == 'P'] *)
  mode_is_P : Picture -> bool;
  (** the indices of a mode-[P] picture *)
  as_indexed : Picture -> Indexed;
  (** [img.convert(mode='RGB')] *)
  convert_rgb : Picture -> RgbImage;
  (** [rgb.quantize(palette=p)], [p] a palette image given by the flat
      palette it was built from with [putpalette] *)
  quantize : RgbImage -> list Z -> Indexed;
  (** [rgb.resize((w, h))], filtered *)
  resize_rgb : RgbImage -> nat -> nat -> RgbImage;
  (** [img.resize((w, h))] of a mode-[P] image, nearest neighbour *)
  resize_indexed : Indexed -> nat -> nat -> Indexed
}.

(** The laws of the library the proofs use. *)
Record ImagingLaws (B : Imaging) : Prop := {
  as_indexed_size : forall p,
    iwidth (as_indexed p) = pic_width p /\
    iheight (as_indexed p) = pic_height p;
  convert_rgb_size : forall p,
    rwidth (convert_rgb p) = pic_width p /\
    rheight (convert_rgb p) = pic_height p;
  quantize_size : forall r pal,
    iwidth (quantize r pal) = rwidth r /\ iheight (quantize r pal) = rheight r;
  resize_rgb_size : forall r w h,
    rwidth (resize_rgb r w h) = w /\ rheight (resize_rgb r w h) = h;
  resize_indexed_size : forall img w h,
    iwidth (resize_indexed img w h) = w /\ iheight (resize_indexed img w h) = h;
  (** a mode-[P] pixel is one byte *)
  quantize_byte : forall r pal i,
    i ∈ ipixels (quantize r pal) -> i < 256;
  (** among palette entries of one colour the quantizer only ever
      answers the first *)
  quantize_first : forall r pal i j,
    i ∈ ipixels (quantize r pal) -> j < i ->
    Palette.entry pal j <> Palette.entry pal i;
  (** nearest-neighbour resampling copies pixels of its source *)
  resize_indexed_nearest : forall img w h i,
    i ∈ ipixels (resize_indexed img w h) -> i ∈ ipixels img
}.

(** ** Paths and names ([os.path], [str]) *)

Module Path.

Local Open Scope string_scope.

Definition sep : ascii := "/"%char.
Definition extsep : ascii := "."%char.

Fixpoint rfind_from (c : ascii) (s : string) (i found : Z) : Z :=
  match s with
  | EmptyString => found
  | String a r =>
      rfind_from c r (i + 1)%Z (if Ascii.eqb a c then i else found)
  end.

(** [s.rfind(c)]: the last index of [c] in [s], or [-1]. *)
Definition rfind (c : ascii) (s : string) : Z := rfind_from c s 0%Z (-1)%Z.

(** [s[n:]] *)
Fixpoint str_drop (n : nat) (s : string) : string :=
  match n, s with
  | S n', String _ r => str_drop n' r
  | _, _ => s
  end.

(** [s[:n]] *)
Fixpoint str_take (n : nat) (s : string) : string :=
  match n, s with
  | S n', String a r => String a (str_take n' r)
  | _, _ => EmptyString
  end.

(** [s == c * len(s)] *)
Fixpoint all_char (c : ascii) (s : string) : bool :=
  match s with
  | EmptyString => true
  | String a r => Ascii.eqb a c && all_char c r
  end.

(** [s.rstrip(c)] *)
Fixpoint rstrip (c : ascii) (s : string) : string :=
  match s with
  | EmptyString => EmptyString
  | String a r =>
      match rstrip c r with
      | EmptyString =>
          if Ascii.eqb a c then EmptyString else String a EmptyString
      | r' => String a r'
      end
  end.

(** [posixpath.basename]: [i = p.rfind(sep) + 1; return p[i:]] *)
Definition basename (p : string) : string :=
  let i := (rfind sep p + 1)%Z in
  str_drop (Z.to_nat i) p.

(** [posixpath.dirname]: [head = p[:i]], stripped of trailing separators
    unless it consists of separators only. *)
Definition dirname (p : string) : string :=
  let i := (rfind sep p + 1)%Z in
  let head := str_take (Z.to_nat i) p in
  match head with
  | EmptyString => head
  | _ => if all_char sep head then head else rstrip sep head
  end.

(** [s.split(c)] *)
Fixpoint split (c : ascii) (s : string) : list string :=
  match s with
  | EmptyString => [EmptyString]
  | String a r =>
      if Ascii.eqb a c then EmptyString :: split c r
      else match split c r with
           | h :: t => String a h :: t
           | [] => [String a EmptyString]
           end
  end.

(** [os.path.basename(file).split('.')[0]] (lines 150 and 180) *)
Definition lump_name (file : string) : string :=
  hd EmptyString (split extsep (basename file)).

(** The base name with its extension stripped, in the sense of
    [os.path.splitext]: the extension starts at the last dot, and a base
    name in which only dots come before that dot has none. This
    definition follows the words of the specification and is what
    [lump_name] is compared with. *)
Fixpoint before_last_dot (s : string) : option string :=
  match s with
  | EmptyString => None
  | String a r =>
      match before_last_dot r with
      | Some p => Some (String a p)
      | None => if Ascii.eqb a extsep then Some EmptyString else None
      end
  end.

Definition stem (base : string) : string :=
  match before_last_dot base with
  | Some p => if all_char extsep p then base else p
  | None => base
  end.

Definition dotfree (s : string) : Prop :=
  forall a, a ∈ list_ascii_of_string s -> a <> extsep.

End Path.

(** ** Lumps and directory entries ([vgio.quake.wad], [vgio.quake.lmp]) *)

Inductive lump_type : Type := LUMP | QPIC | MIPTEX.

Inductive CompressionType : Type := NONE | LZSS.

Record Miptexture : Type := mkMip {
  mip_name : string;
  mip_width : nat;
  mip_height : nat;
  mip_offsets : list nat;
  mip_pixels : list nat
}.

Record Lmp : Type := mkLmp {
  lmp_width : nat;
  lmp_height : nat;
  lmp_pixels : list nat
}.

Record WadInfo : Type := mkInfo {
  filename : string;
  file_size : nat;
  disk_size : nat;
  compression : CompressionType;
  info_type : lump_type
}.

(** The size of the fixed fields of a texture record: a 16-byte name,
    width, height and four offsets of 4 bytes each. The source writes the
    literal [40]. *)
Definition miptex_header_size : nat := 40.

(** ** Mip pyramid builder (lines 174-221) *)

Section Pipeline.

Context {B : Imaging}.

(** [quake.palette], the colour table of vgio. *)
Variable table : list Palette.rgb.

Definition palette : list Z := Palette.flatten table.

(** A palette image is used for its palette only. *)
Definition palette_image : list Z := palette.

Definition palette_image_nofb : list Z := Palette.palette_nofb palette.

(** Lines 147-148 and 176-177: the picture is quantized against the full
    palette unless it is of mode [P] and [--raw-indexed] is given. *)
Definition quantized (raw_color_mode : bool) (pic : Picture) : Indexed :=
  if negb (mode_is_P pic) || negb raw_color_mode
  then quantize (convert_rgb pic) palette_image
  else as_indexed pic.

(** Line 190: [args.smooth_mip or (args.smart_mip and not has_fb)] *)
Definition smooth_scaling (smooth_mip smart_mip : bool) (has_fb : pyval)
  : bool :=
  smooth_mip || (smart_mip && negb (truthy has_fb)).

(** Lines 193-205: the image of level [i > 0]. *)
Definition resized_image (smooth : bool) (has_fb : pyval)
  (img : Indexed) (img_rgb : RgbImage) (i : nat) : Indexed :=
  if smooth then
    let target_palette :=
      if truthy has_fb then palette_image else palette_image_nofb in
    quantize (resize_rgb img_rgb (iwidth img / 2 ^ i) (iheight img / 2 ^ i))
             target_palette
  else
    resize_indexed img (iwidth img / 2 ^ i) (iheight img / 2 ^ i).

Definition level_image (smooth : bool) (has_fb : pyval)
  (img : Indexed) (img_rgb : RgbImage) (i : nat) : Indexed :=
  if 0 <? i then resized_image smooth has_fb img img_rgb i else img.

(** Lines 206 and 208: [data] of round [i]. *)
Definition level_data (smooth : bool) (has_fb : pyval)
  (img : Indexed) (img_rgb : RgbImage) (i : nat) : list nat :=
  tobytes (level_image smooth has_fb img img_rgb i).

(** Lines 209-211: [mip.pixels += ...] and, for [i < 3],
    [mip.offsets += [mip.offsets[-1] + len(data)]]. *)
Definition add_level (mip : Miptexture) (i : nat) (data : list nat)
  : Miptexture :=
  {| mip_name := mip_name mip;
     mip_width := mip_width mip;
     mip_height := mip_height mip;
     mip_offsets :=
       if i <? 3
       then mip_offsets mip ++ [List.last (mip_offsets mip) 0 + length data]
       else mip_offsets mip;
     mip_pixels := mip_pixels mip ++ data |}.

(** Lines 182-211: the texture after [for i in range(4)]. *)
Definition build_mips (name : string) (smooth : bool) (has_fb : pyval)
  (img : Indexed) (img_rgb : RgbImage) : Miptexture :=
  foldl (fun mip i => add_level mip i (level_data smooth has_fb img img_rgb i))
        {| mip_name := name;
           mip_width := iwidth img;
           mip_height := iheight img;
           mip_offsets := [40];
           mip_pixels := [] |}
        (seq 0 4).

(** Lines 174-221: texture and directory entry of an opened picture. *)
Definition miptex_of (raw_color_mode smooth_mip smart_mip : bool)
  (file : string) (pic : Picture) : Miptexture * WadInfo :=
  let img_rgb := convert_rgb pic in
  let img := quantized raw_color_mode pic in
  let has_fb := has_fullbright img in
  let name := Path.lump_name file in
  let smooth := smooth_scaling smooth_mip smart_mip has_fb in
  let mip := build_mips name smooth has_fb img img_rgb in
  let size := 40 + length (mip_pixels mip) in
  (mip,
   {| filename := name;
      file_size := size;
      disk_size := size;
      compression := NONE;
      info_type := MIPTEX |}).

(** Lines 146-166: picture lump and directory entry. [buff.tell()] after
    [Lmp.write] is the size of the picture layout, two 4-byte integers
    and the pixels. *)
Definition qpic_of (raw_color_mode : bool) (file : string) (pic : Picture)
  : Lmp * WadInfo :=
  let img := quantized raw_color_mode pic in
  let pixels := tobytes img in
  let name := Path.lump_name file in
  let size := 8 + length pixels in
  ({| lmp_width := iwidth img; lmp_height := iheight img;
      lmp_pixels := pixels |},
   {| filename := name;
      file_size := size;
      disk_size := size;
      compression := NONE;
      info_type := QPIC |}).

End Pipeline.

(** ** The process: exceptions, file system, archive handle *)

Inductive exn : Type :=
| Exception (msg : string)
| SystemExit (code : Z).

Inductive result (A : Type) : Type :=
| Ok (a : A)
| Raise (e : exn).

Arguments Ok {A} a.
Arguments Raise {A} e.

(** What the archive holds of one [write] or [writestr] call. *)
Inductive payload : Type :=
| QpicData (lmp : Lmp)
| MiptexData (mip : Miptexture).

Inductive entry : Type :=
| FileEntry (file : string)
| LumpEntry (info : WadInfo) (data : payload).

(** A regular file: an archive, known by its directory, or anything else. *)
Inductive content : Type :=
| Archive (dir : list entry)
| Blob.

Inductive filemode : Type := mode_a | mode_w.

(** An open [WadFile]: its path and the directory it keeps in memory. *)
Record Wad : Type := mkWad {
  wad_path : string;
  wad_dir : list entry
}.

Record World : Type := mkWorld {
  fs_files : gmap string content;
  fs_dirs : gset string;
  handle : option Wad;
  stdout : list string;
  stderr : list string
}.

(** A computation reads and changes the world and returns or raises; the
    world as it is when an exception is raised is kept. *)
Definition M (A : Type) : Type := World -> World * result A.

Definition ret {A : Type} (a : A) : M A := fun w => (w, Ok a).

Definition bind {A C : Type} (m : M A) (k : A -> M C) : M C :=
  fun w =>
    match m w with
    | (w', Ok a) => k a w'
    | (w', Raise e) => (w', Raise e)
    end.

Definition raise {A : Type} (e : exn) : M A := fun w => (w, Raise e).

(** [try: m  except: h(sys.exc_info()[1])], a bare [except]. *)
Definition try_except {A : Type} (m : M A) (h : exn -> M A) : M A :=
  fun w =>
    match m w with
    | (w', Raise e) => h e w'
    | r => r
    end.

#[global] Instance M_ret : MRet M := @ret.
#[global] Instance M_bind : MBind M := fun A C k m => bind m k.

(** [for x in l: f(x)] *)
Fixpoint for_each {A : Type} (f : A -> M unit) (l : list A) : M unit :=
  match l with
  | [] => ret tt
  | x :: l' => f x;; for_each f l'
  end.

(** [str(e)] *)
Definition exn_message (e : exn) : string :=
  match e with
  | Exception msg => msg
  | SystemExit _ => EmptyString
  end.

Definition print (message : string) : M unit :=
  fun w => (mkWorld (fs_files w) (fs_dirs w) (handle w)
                    (stdout w ++ [message]) (stderr w), Ok tt).

Definition eprint (message : string) : M unit :=
  fun w => (mkWorld (fs_files w) (fs_dirs w) (handle w)
                    (stdout w) (stderr w ++ [message]), Ok tt).

(** [sys.exit(code)] *)
Definition sys_exit {A : Type} (code : Z) : M A := raise (SystemExit code).

(** [os.path.isfile(path)] *)
Definition isfile (path : string) : M bool :=
  fun w => (w, Ok (bool_decide (is_Some (fs_files w !! path)))).

(** The directories [os.makedirs(d)] makes sure of: [d] and the chain of
    its [dirname]s. *)
Fixpoint dir_chain (fuel : nat) (d : string) : list string :=
  match fuel with
  | 0 => []
  | S n =>
      match d with
      | EmptyString => []
      | _ => d :: (if String.eqb (Path.dirname d) d then []
                   else dir_chain n (Path.dirname d))
      end
  end.

(** [os.makedirs(d, exist_ok=True)]: succeeds on a directory that exists,
    creates the missing ones, and raises when [d] or one of its parents
    is a regular file. *)
Definition makedirs (d : string) : M unit :=
  fun w =>
    let chain := dir_chain (S (String.length d)) d in
    if existsb (fun p => bool_decide (is_Some (fs_files w !! p))) chain
    then (w, Raise (Exception "FileExistsError"))
    else (mkWorld (fs_files w) (fs_dirs w ∪ list_to_set chain) (handle w)
                  (stdout w) (stderr w), Ok tt).

(** [wad.WadFile(path, mode)]: mode ['a'] reads the directory of an
    existing archive, mode ['w'] starts an empty archive at [path]. *)
Definition wad_open (path : string) (mode : filemode) : M unit :=
  fun w =>
    match mode with
    | mode_a =>
        match fs_files w !! path with
        | Some (Archive dir) =>
            (mkWorld (fs_files w) (fs_dirs w) (Some (mkWad path dir))
                     (stdout w) (stderr w), Ok tt)
        | Some Blob => (w, Raise (Exception "BadWadFile"))
        | None => (w, Raise (Exception "FileNotFoundError"))
        end
    | mode_w =>
        if bool_decide (path ∈ fs_dirs w)
        then (w, Raise (Exception "IsADirectoryError"))
        else (mkWorld (<[path := Archive []]> (fs_files w)) (fs_dirs w)
                      (Some (mkWad path [])) (stdout w) (stderr w), Ok tt)
    end.

(** [WadFile.close()], also run by [__exit__]: the directory kept in
    memory is written to the file and the handle is released. *)
Definition wad_close (w : World) : World :=
  match handle w with
  | Some h =>
      mkWorld (<[wad_path h := Archive (wad_dir h)]> (fs_files w)) (fs_dirs w)
              None (stdout w) (stderr w)
  | None => w
  end.

(** [with wad.WadFile(path, mode) as wad_file: body]; [__exit__] closes
    the archive on every way out of [body] and lets an exception through. *)
Definition with_wadfile (path : string) (mode : filemode) (body : M unit)
  : M unit :=
  fun w =>
    match wad_open path mode w with
    | (w1, Ok _) => let '(w2, r) := body w1 in (wad_close w2, r)
    | (w1, Raise e) => (w1, Raise e)
    end.

(** ** The command (lines 31-230) *)

Record Args : Type := mkArgs {
  arg_file : string;
  arg_list : list string;
  arg_type : lump_type;
  arg_raw_color_mode : bool;
  arg_smooth_mip : bool;
  arg_smart_mip : bool;
  arg_quiet : bool
}.

Section Command.

Context {B : Imaging}.

Variable table : list Palette.rgb.

(** [Image.open(file)]: the picture in the file, or the message of the
    exception raised for a file that is missing or is no image. *)
Variable image_open : string -> Picture + string.

(** Whether the write of an entry to the archive fails, and with what
    message. *)
Variable write_error : entry -> option string.

(** Modelled from the spec: [Parser.error] of [qcli.common], which is not
    part of this file. It writes the message to the error stream and ends
    the process with [parser_status], a status that is not zero. *)
Variable parser_status : Z.

Definition parser_error {A : Type} (message : string) : M A :=
  eprint message;; sys_exit parser_status.

(** Lines 106-112 *)
Definition log (args : Args) (message : string) : M unit :=
  if arg_quiet args then ret tt else print message.

Definition open_image (file : string) : M Picture :=
  fun w =>
    match image_open file with
    | inl img => (w, Ok img)
    | inr msg => (w, Raise (Exception msg))
    end.

(** Adds [e] to the open archive; a failed write adds nothing. *)
Definition wad_append (e : entry) : M unit :=
  fun w =>
    match write_error e with
    | Some msg => (w, Raise (Exception msg))
    | None =>
        match handle w with
        | Some h =>
            (mkWorld (fs_files w) (fs_dirs w)
                     (Some (mkWad (wad_path h) (wad_dir h ++ [e])))
                     (stdout w) (stderr w), Ok tt)
        | None => (w, Raise (Exception "ValueError"))
        end
    end.

(** [wad_file.write(file)] *)
Definition wad_write (file : string) : M unit := wad_append (FileEntry file).

(** [wad_file.writestr(info, buff)] *)
Definition wad_writestr (info : WadInfo) (data : payload) : M unit :=
  wad_append (LumpEntry info data).

(** Lines 141-143 *)
Definition add_lump (args : Args) (file : string) : M unit :=
  log args ("  adding: " +:+ file);;
  wad_write file.

(** Lines 145-170 *)
Definition add_qpic (args : Args) (file : string) : M unit :=
  img ← open_image file;
  let '(qpic, info) := qpic_of table (arg_raw_color_mode args) file img in
  log args ("  adding: " +:+ file);;
  wad_writestr info (QpicData qpic).

(** Lines 174-225, the body of the [try]. *)
Definition add_miptex (args : Args) (file : string) : M unit :=
  img ← open_image file;
  let '(mip, info) :=
    miptex_of table (arg_raw_color_mode args) (arg_smooth_mip args)
              (arg_smart_mip args) file img in
  log args ("  adding: " +:+ file);;
  wad_writestr info (MiptexData mip).

(** Lines 141-228: one round of [for file in args.list]. *)
Definition process_file (args : Args) (file : string) : M unit :=
  match arg_type args with
  | LUMP => add_lump args file
  | QPIC => add_qpic args file
  | MIPTEX =>
      try_except (add_miptex args file)
                 (fun e => parser_error (exn_message e))
  end.

(** Lines 114-120: the directory is made sure of, then the mode chosen. *)
Definition choose_filemode (args : Args) : M filemode :=
  let dir := match Path.dirname (arg_file args) with
             | EmptyString => "."
             | d => d
             end in
  makedirs dir;;
  is_file ← isfile (arg_file args);
  ret (if negb is_file then mode_w else mode_a).

(** Lines 103-230 *)
Definition main (args : Args) : M unit :=
  (match arg_list args with
   | [] => parser_error "the following arguments are required: list"
   | _ => ret tt
   end);;
  filemode ← choose_filemode args;
  with_wadfile (arg_file args) filemode
    (log args ("Archive: " +:+ Path.basename (arg_file args));;
     for_each (process_file args) (arg_list args));;
  sys_exit 0.

(** The end of the process: [SystemExit] gives its code; any other
    exception is reported by the interpreter on the error stream, with
    status 1. *)
Definition run (m : M unit) (w : World) : World * Z :=
  match m w with
  | (w', Ok _) => (w', 0%Z)
  | (w', Raise (SystemExit code)) => (w', code)
  | (w', Raise (Exception msg)) =>
      (mkWorld (fs_files w') (fs_dirs w') (handle w') (stdout w')
               (stderr w' ++ ["Traceback: " +:+ msg]), 1%Z)
  end.

End Command.

(** ** What a step does to the archive *)

(** [w'] is [w] with entry [e] added to the open archive. *)
Definition appended (e : entry) (w w' : World) : Prop :=
  exists h,
    handle w = Some h /\
    handle w' = Some (mkWad (wad_path h) (wad_dir h ++ [e])) /\
    fs_files w' = fs_files w /\ fs_dirs w' = fs_dirs w /\
    stderr w' = stderr w.

(** Archive and file system are the same in [w] and [w']. *)
Definition untouched (w w' : World) : Prop :=
  handle w' = handle w /\ fs_files w' = fs_files w /\ fs_dirs w' = fs_dirs w.

(** How a failed step ends: through [parser.error], with a message on the
    error stream and [SystemExit status], or with an exception that
    nobody caught. *)
Definition failed_with (status : Z) (w w' : World) (x : exn) : Prop :=
  (x = SystemExit status /\ exists msg, stderr w' = stderr w ++ [msg]) \/
  ((exists msg, x = Exception msg) /\ stderr w' = stderr w).

(** ** Shapes

    An image of Pillow holds one pixel for each position. *)

Definition well_formed (img : Indexed) : Prop :=
  length (ipixels img) = iwidth img * iheight img.

Definition well_formed_rgb (r : RgbImage) : Prop :=
  length (rpixels r) = rwidth r * rheight r.

(** A picture as [Image.open] gives it is well formed in both its
    views. *)
Definition well_formed_picture `{B : Imaging} (p : Picture) : Prop :=
  well_formed_rgb (convert_rgb p) /\
  (mode_is_P p = true -> well_formed (as_indexed p)).

(** Quantizing and resizing keep images well formed. Resizing is asked of
    images that have pixels only. *)
Record ImagingShapes (B : Imaging) : Prop := {
  quantize_shape : forall r pal,
    well_formed_rgb r -> well_formed (quantize r pal);
  resize_rgb_shape : forall r w h,
    well_formed_rgb r -> 0 < rwidth r -> 0 < rheight r ->
    well_formed_rgb (resize_rgb r w h);
  resize_indexed_shape : forall img w h,
    well_formed img -> 0 < iwidth img -> 0 < iheight img ->
    well_formed (resize_indexed img w h)
}.

(** ** What an input adds

    The entry that lines 141-225 hand to the archive for [file]. *)

Section Entries.

Context {B : Imaging}.

Variable table : list Palette.rgb.
Variable image_open : string -> Picture + string.

Definition entry_from (args : Args) (file : string) (e : entry) : Prop :=
  match arg_type args with
  | LUMP => e = FileEntry file
  | QPIC =>
      exists pic,
        image_open file = inl pic /\
        e = LumpEntry (qpic_of table (arg_raw_color_mode args) file pic).2
              (QpicData (qpic_of table (arg_raw_color_mode args) file pic).1)
  | MIPTEX =>
      exists pic,
        image_open file = inl pic /\
        let r := miptex_of table (arg_raw_color_mode args)
                   (arg_smooth_mip args) (arg_smart_mip args) file pic in
        e = LumpEntry r.2 (MiptexData r.1)
  end.

End Entries.

(** The lines a run prints for its inputs unless it is quiet. *)
Definition progress (args : Args) (files : list string) : list string :=
  if arg_quiet args then []
  else map (fun file => "  adding: " +:+ file) files.

(** ** A reference implementation of the imaging interface

    Nearest-colour quantization with the first of equally near entries,
    and nearest-neighbour resampling. It shows that the laws of
    [ImagingLaws] hold together, and lets the pipeline run on examples. *)

Module Reference.

Record picture : Type := mkPicture {
  p_mode_P : bool;
  p_width : nat;
  p_height : nat;
  p_indices : list nat;
  p_rgb : list Palette.rgb
}.

(** Squared distance of a colour to a palette entry. *)
Definition distance (c : Palette.rgb) (e : list Z) : Z :=
  let '(r, g, b) := c in
  ((r - nth 0 e 0) ^ 2 + (g - nth 1 e 0) ^ 2 + (b - nth 2 e 0) ^ 2)%Z.

Fixpoint argmin_from (f : nat -> Z) (best : nat) (l : list nat) : nat :=
  match l with
  | [] => best
  | i :: l' => argmin_from f (if (f i <? f best)%Z then i else best) l'
  end.

(** The first index below 256 at which [f] is least. *)
Definition argmin (f : nat -> Z) : nat := argmin_from f 0 (seq 1 255).

Definition nearest_index (pal : list Z) (c : Palette.rgb) : nat :=
  argmin (fun i => distance c (Palette.entry pal i)).

Definition ref_quantize (r : RgbImage) (pal : list Z) : Indexed :=
  mkIndexed (rwidth r) (rheight r) (map (nearest_index pal) (rpixels r)).

(** Source positions of the pixels of a [w] x [h] resampling of a
    [W] x [H] image, sampled at pixel centres. *)
Definition sample_positions (W H w h : nat) : list nat :=
  flat_map (fun y => map (fun x => ((2 * y + 1) * H / (2 * h)) * W
                                   + (2 * x + 1) * W / (2 * w))
                         (seq 0 w))
           (seq 0 h).

Definition resample {A : Type} (W H : nat) (pix : list A) (w h : nat)
  : list A :=
  omap (fun k => pix !! k) (sample_positions W H w h).

Definition ref_resize_indexed (img : Indexed) (w h : nat) : Indexed :=
  mkIndexed w h (resample (iwidth img) (iheight img) (ipixels img) w h).

Definition ref_resize_rgb (r : RgbImage) (w h : nat) : RgbImage :=
  mkRgb w h (resample (rwidth r) (rheight r) (rpixels r) w h).

#[export] Instance imaging : Imaging := {|
  Picture := picture;
  pic_width := p_width;
  pic_height := p_height;
  mode_is_P := p_mode_P;
  as_indexed := fun p => mkIndexed (p_width p) (p_height p) (p_indices p);
  convert_rgb := fun p => mkRgb (p_width p) (p_height p) (p_rgb p);
  quantize := ref_quantize;
  resize_rgb := ref_resize_rgb;
  resize_indexed := ref_resize_indexed
|}.

(** A 256-entry colour table that starts with black: entry [i] is the
    grey [(i, i, i)]. *)
Definition grey_table : list Palette.rgb :=
  map (fun i => (Z.of_nat i, Z.of_nat i, Z.of_nat i)) (seq 0 256).

(** An 8 x 8 picture of mode [P], all of index [v]. *)
Definition flat_picture (v : nat) : picture :=
  mkPicture true 8 8 (replicate 64 v)
            (replicate 64 (Z.of_nat v, Z.of_nat v, Z.of_nat v)).

End Reference.

(** ** A run to try the command on

    Three textures are added to a new archive [out/tex.wad]; the second
    file is no image. *)

Module Scenario.

Definition image_open (file : string) : Reference.picture + string :=
  if String.eqb file "bad.png" then inr "cannot identify image file"%string
  else inl (Reference.flat_picture 5).

Definition write_error (e : entry) : option string := None.

Definition parser_status : Z := 2.

Definition args (inputs : list string) : Args :=
  {| arg_file := "out/tex.wad";
     arg_list := inputs;
     arg_type := MIPTEX;
     arg_raw_color_mode := true;
     arg_smooth_mip := false;
     arg_smart_mip := true;
     arg_quiet := false |}.

Definition empty_world : World :=
  {| fs_files := ∅; fs_dirs := ∅; handle := None;
     stdout := []; stderr := [] |}.

(** The world once the directory [out] is there. *)
Definition world_with_dir : World :=
  {| fs_files := ∅; fs_dirs := {["out"%string]}; handle := None;
     stdout := []; stderr := [] |}.

(** The world once the new archive is open. *)
Definition world_opened : World :=
  {| fs_files := {["out/tex.wad"%string := Archive []]};
     fs_dirs := {["out"%string]};
     handle := Some (mkWad "out/tex.wad" []);
     stdout := []; stderr := [] |}.

Definition run_command (inputs : list string) : World * Z :=
  run (main (B := Reference.imaging) Reference.grey_table image_open
            write_error parser_status (args inputs))
      empty_world.

End Scenario.

(** * Properties *)

(** ** Palette registry *)

Section PaletteFacts.

Import Palette.

Lemma flatten_from (acc : list Z) (table : list rgb) :
  foldl (fun palette p => palette ++ channels p) acc table
  = acc ++ concat (map channels table).
Proof.
  revert acc. induction table as [|c table IH]; intros acc; simpl.
  - by rewrite app_nil_r.
  - by rewrite IH, <- app_assoc.
Qed.

Lemma flatten_concat (table : list rgb) :
  flatten table = concat (map channels table).
Proof. unfold flatten. by rewrite flatten_from. Qed.

Lemma flatten_app (s t : list rgb) : flatten (s ++ t) = flatten s ++ flatten t.
Proof. by rewrite !flatten_concat, map_app, concat_app. Qed.

Lemma length_channels (c : rgb) : length (channels c) = 3.
Proof. by destruct c as [[r g] b]. Qed.

Lemma length_flatten (table : list rgb) :
  length (flatten table) = 3 * length table.
Proof.
  rewrite flatten_concat.
  induction table as [|c table IH]; simpl; [done|].
  rewrite length_app, length_channels, IH. lia.
Qed.

Lemma flatten_cons (c : rgb) (table : list rgb) :
  flatten (c :: table) = channels c ++ flatten table.
Proof. by rewrite !flatten_concat. Qed.

Lemma take_flatten (n : nat) (table : list rgb) :
  take (3 * n) (flatten table) = flatten (take n table).
Proof.
  revert n. induction table as [|c table IH]; intros n.
  - change (flatten []) with (@nil Z). by rewrite !take_nil.
  - destruct n as [|n]; [done|].
    change (take (S n) (c :: table)) with (c :: take n table).
    rewrite !flatten_cons.
    replace (3 * S n) with (length (channels c) + 3 * n)
      by (rewrite length_channels; lia).
    by rewrite take_app_add, IH.
Qed.

Lemma drop_flatten (n : nat) (table : list rgb) :
  drop (3 * n) (flatten table) = flatten (drop n table).
Proof.
  revert n. induction table as [|c table IH]; intros n.
  - change (flatten []) with (@nil Z). by rewrite !drop_nil.
  - destruct n as [|n]; [done|].
    change (drop (S n) (c :: table)) with (drop n table).
    rewrite flatten_cons.
    replace (3 * S n) with (length (channels c) + 3 * n)
      by (rewrite length_channels; lia).
    by rewrite drop_app_add, IH.
Qed.

(** Entry [i] of the flattened table is the [i]-th colour. *)
Lemma entry_flatten (table : list rgb) (i : nat) (c : rgb) :
  table !! i = Some c -> entry (flatten table) i = channels c.
Proof.
  intros Hi. unfold entry. rewrite drop_flatten.
  rewrite (drop_S _ _ _ Hi), flatten_cons.
  replace 3 with (length (channels c)) by apply length_channels.
  by rewrite take_app_length.
Qed.

(** The palette without fullbright is the flattened table whose last 32
    colours are replaced by black. *)
Lemma palette_nofb_flatten (table : list rgb) :
  length table = 256 ->
  palette_nofb (flatten table)
  = flatten (take 224 table ++ replicate 32 black).
Proof.
  intros Hlen. unfold palette_nofb.
  rewrite length_flatten, Hlen.
  change (3 * 256 - 96) with (3 * 224).
  rewrite take_flatten, flatten_app. f_equal.
Qed.

End PaletteFacts.

Lemma entry_palette_nofb_low (table : list Palette.rgb) (i : nat) :
  length table = 256 -> i < 224 ->
  Palette.entry (palette_image_nofb table) i
  = Palette.entry (palette_image table) i.
Proof.
  intros Hlen Hi. unfold palette_image_nofb, palette_image, palette.
  rewrite (palette_nofb_flatten _ Hlen).
  destruct (lookup_lt_is_Some_2 table i ltac:(lia)) as [c Hc].
  rewrite (entry_flatten table i c Hc).
  apply entry_flatten.
  rewrite lookup_app_l by (rewrite length_take; lia).
  by rewrite lookup_take_lt.
Qed.

Lemma entry_palette_nofb_high (table : list Palette.rgb) (i : nat) :
  length table = 256 -> 224 <= i < 256 ->
  Palette.entry (palette_image_nofb table) i = [0; 0; 0]%Z.
Proof.
  intros Hlen Hi. unfold palette_image_nofb, palette_image, palette.
  rewrite (palette_nofb_flatten _ Hlen).
  change [0; 0; 0]%Z with (Palette.channels Palette.black).
  apply entry_flatten.
  rewrite lookup_app_r by (rewrite length_take; lia).
  rewrite length_take, Hlen.
  apply lookup_replicate_2. lia.
Qed.

Lemma length_palette_nofb (table : list Palette.rgb) :
  length table = 256 ->
  length (palette_image_nofb table) = length (palette_image table).
Proof.
  intros Hlen. unfold palette_image_nofb, palette_image, palette.
  rewrite (palette_nofb_flatten _ Hlen).
  rewrite !length_flatten, length_app, length_take, length_replicate. lia.
Qed.

(** C7. For the 256-colour table, whose first colour is black, the palette
    without fullbright has the size of the full palette, agrees with it on
    entries 0-223, and has in each of the entries 224-255 the colour of
    entry 0, black. *)
Theorem palette_nofb_differs_in_fullbright_only (table : list Palette.rgb) :
  length table = 256 ->
  table !! 0 = Some Palette.black ->
  length (palette_image_nofb table) = length (palette_image table) /\
  (forall i, i < 224 ->
     Palette.entry (palette_image_nofb table) i
     = Palette.entry (palette_image table) i) /\
  (forall i, 224 <= i < 256 ->
     Palette.entry (palette_image_nofb table) i
     = Palette.entry (palette_image table) 0 /\
     Palette.entry (palette_image_nofb table) i = [0; 0; 0]%Z).
Proof.
  intros Hlen Hblack. split; [|split].
  - by apply length_palette_nofb.
  - intros i Hi. by apply entry_palette_nofb_low.
  - intros i Hi. rewrite (entry_palette_nofb_high table i Hlen Hi).
    split; [|done]. symmetry.
    unfold palette_image, palette. by rewrite (entry_flatten _ _ _ Hblack).
Qed.

Lemma palette_nofb_differs_in_fullbright_only_witness :
  length (palette_image_nofb Reference.grey_table)
  = length (palette_image Reference.grey_table) /\
  (forall i, i < 224 ->
     Palette.entry (palette_image_nofb Reference.grey_table) i
     = Palette.entry (palette_image Reference.grey_table) i) /\
  (forall i, 224 <= i < 256 ->
     Palette.entry (palette_image_nofb Reference.grey_table) i
     = Palette.entry (palette_image Reference.grey_table) 0 /\
     Palette.entry (palette_image_nofb Reference.grey_table) i = [0; 0; 0]%Z).
Proof.
  apply (palette_nofb_differs_in_fullbright_only Reference.grey_table);
    reflexivity.
Defined.

(** ** Fullbright detector *)

Section Fullbright.

Variable img : Indexed.

Lemma scan_row_stops (y : nat) (xs : list nat) :
  stops_at_first img (map (fun x => (x, y)) xs) (scan_row img y xs).
Proof.
  induction xs as [|x xs IH]; simpl.
  - by split.
  - destruct (223 <? getpixel img x y) eqn:Hpx.
    + exists [], (x, y), (map (fun x => (x, y)) xs). simpl. by repeat split.
    + destruct (scan_row img y xs) as [hit seen]. unfold stops_at_first in *.
      simpl in *. destruct hit.
      * destruct IH as (pre & p & post & -> & -> & Hpre & Hp).
        exists ((x, y) :: pre), p, post. repeat split; try done.
        by constructor.
      * destruct IH as [-> Hall]. split; [done|]. by constructor.
Qed.

Lemma scan_rows_stops (ys : list nat) :
  stops_at_first img
    (flat_map (fun y => map (fun x => (x, y)) (seq 0 (iwidth img))) ys)
    (scan_rows img ys).
Proof.
  induction ys as [|y ys IH]; simpl.
  - by split.
  - pose proof (scan_row_stops y (seq 0 (iwidth img))) as Hrow.
    destruct (scan_row img y (seq 0 (iwidth img))) as [hit seen].
    unfold stops_at_first in *. simpl in *. destruct hit; simpl.
    + destruct Hrow as (pre & p & post & -> & -> & Hpre & Hp).
      exists pre, p, (post ++ flat_map
        (fun y => map (fun x => (x, y)) (seq 0 (iwidth img))) ys).
      repeat split; try done. by rewrite <- app_assoc.
    + destruct Hrow as [-> Hrow].
      destruct (scan_rows img ys) as [hit' seen']. simpl in *. destruct hit'.
      * destruct IH as (pre & p & post & -> & -> & Hpre & Hp).
        exists (map (fun x => (x, y)) (seq 0 (iwidth img)) ++ pre), p, post.
        repeat split; try done.
        -- by rewrite <- app_assoc.
        -- by rewrite <- app_assoc.
        -- by apply Forall_app.
      * destruct IH as [-> Hall]. split; [done|]. by apply Forall_app.
Qed.

Lemma has_fullbright_run_stops :
  stops_at_first img (scan_order img) (has_fullbright_run img).
Proof. apply scan_rows_stops. Qed.

Lemma elem_of_scan_order (x y : nat) :
  (x, y) ∈ scan_order img <-> x < iwidth img /\ y < iheight img.
Proof.
  unfold scan_order. rewrite list_elem_of_In, in_flat_map. split.
  - intros (y' & Hy' & Hin). apply in_map_iff in Hin as (x' & Heq & Hx').
    inversion Heq; subst. apply in_seq in Hy', Hx'. lia.
  - intros [Hx Hy]. exists y. split; [apply in_seq; lia|].
    apply in_map_iff. exists x. split; [done|apply in_seq; lia].
Qed.

(** The loops reach [return True] exactly when some pixel is fullbright. *)
Lemma has_fullbright_run_hit :
  (has_fullbright_run img).1 = true <->
  exists x y, x < iwidth img /\ y < iheight img /\ 223 < getpixel img x y.
Proof.
  pose proof has_fullbright_run_stops as Hstop. unfold stops_at_first in Hstop.
  destruct (has_fullbright_run img).1; split.
  - intros _. destruct Hstop as (pre & [x y] & post & Horder & _ & _ & Hp).
    exists x, y.
    assert ((x, y) ∈ scan_order img) as Hin
      by (rewrite Horder; set_solver).
    apply elem_of_scan_order in Hin as [Hx Hy].
    unfold is_fullbright in Hp. simpl in Hp. apply Nat.ltb_lt in Hp. done.
  - done.
  - done.
  - intros (x & y & Hx & Hy & Hpx). destruct Hstop as [_ Hall].
    rewrite Forall_forall in Hall.
    specialize (Hall (x, y) (proj2 (elem_of_scan_order x y) (conj Hx Hy))).
    unfold is_fullbright in Hall. simpl in Hall.
    apply Nat.ltb_ge in Hall. lia.
Qed.

End Fullbright.

Lemma truthy_has_fullbright (img : Indexed) :
  truthy (has_fullbright img) = (has_fullbright_run img).1.
Proof. unfold has_fullbright. by destruct (has_fullbright_run img).1. Qed.

Lemma getpixel_all_zero (img : Indexed) (x y : nat) :
  Forall (fun v => v = 0) (ipixels img) -> getpixel img x y = 0.
Proof.
  intros Hzero. unfold getpixel.
  destruct (nth_in_or_default (y * iwidth img + x) (ipixels img) 0)
    as [Hin|Hdef]; [|done].
  rewrite Forall_forall in Hzero. apply Hzero. by apply list_elem_of_In.
Qed.

(** C3. [has_fullbright] returns [True] exactly when some pixel of the
    image has an index above 223. It reads the pixels row by row and
    stops at the first such pixel. It never returns [False]: when there
    is no such pixel, and only then, it reaches the end of the function,
    which has no [return] there, and the call has the value [None]; so it
    is for an image whose indices are all zero. [None] is false as a
    truth value, which is what lines 190 and 196 use. *)
Theorem has_fullbright_iff_pixel_above_223 (img : Indexed) :
  (has_fullbright img = PyBool true <->
   exists x y, x < iwidth img /\ y < iheight img /\ 223 < getpixel img x y) /\
  (truthy (has_fullbright img) = true <->
   exists x y, x < iwidth img /\ y < iheight img /\ 223 < getpixel img x y) /\
  stops_at_first img (scan_order img)
    (truthy (has_fullbright img), has_fullbright_probes img) /\
  (Forall (fun v => v = 0) (ipixels img) ->
   has_fullbright img = PyNone /\ truthy (has_fullbright img) = false) /\
  has_fullbright img <> PyBool false /\
  (has_fullbright img = PyNone <->
   forall x y, x < iwidth img -> y < iheight img -> getpixel img x y <= 223).
Proof.
  pose proof (has_fullbright_run_hit img) as Hhit.
  pose proof (has_fullbright_run_stops img) as Hstop.
  unfold has_fullbright, has_fullbright_probes, stops_at_first in *.
  destruct (has_fullbright_run img) as [hit seen]. simpl in *.
  destruct hit; simpl.
  - destruct Hhit as [Hhit _].
    destruct (Hhit eq_refl) as (x & y & Hx & Hy & Hpx).
    split; [split; eauto|]. split; [split; eauto|]. split; [exact Hstop|].
    split; [|split; [discriminate|]].
    + intros Hzero. exfalso.
      rewrite (getpixel_all_zero img x y Hzero) in Hpx. lia.
    + split; [discriminate|].
      intros Hall. specialize (Hall x y Hx Hy). lia.
  - split; [|split; [|split; [|split; [|split]]]].
    + split; [discriminate|]. intros Hex. apply Hhit in Hex. discriminate.
    + split; [discriminate|]. intros Hex. apply Hhit in Hex. discriminate.
    + exact Hstop.
    + done.
    + discriminate.
    + split; [|done]. intros _ x y Hx Hy.
      destruct (decide (getpixel img x y <= 223)) as [|Hgt]; [done|].
      assert (false = true) by (apply Hhit; exists x, y; lia).
      discriminate.
Qed.

(** The all-zero 2 x 2 image, for which the call gives [None] and not
    [False], and an image with one fullbright pixel, at which the scan
    stops. *)
Lemma has_fullbright_iff_pixel_above_223_witness :
  has_fullbright (mkIndexed 2 2 [0; 0; 0; 0]) = PyNone /\
  has_fullbright (mkIndexed 2 2 [0; 0; 0; 0]) <> PyBool false /\
  truthy (has_fullbright (mkIndexed 2 2 [0; 0; 0; 0])) = false /\
  has_fullbright (mkIndexed 2 2 [0; 250; 7; 0]) = PyBool true /\
  has_fullbright_probes (mkIndexed 2 2 [0; 250; 7; 0]) = [(0, 0); (1, 0)].
Proof.
  destruct (has_fullbright_iff_pixel_above_223 (mkIndexed 2 2 [0; 0; 0; 0]))
    as (_ & _ & _ & Hzero & Hnot & _).
  destruct Hzero as [Hnone Hfalse]; [simpl; repeat constructor|].
  split; [exact Hnone|]. split; [exact Hnot|]. split; [exact Hfalse|].
  split; reflexivity.
Defined.

(** ** Choice of the scaling *)

(** C1. Smooth scaling is used exactly when [--smooth-mip] is given, or
    [--smart-mip] is given and the quantized image has no pixel above 223;
    levels 1 to 3 are then quantized resamplings of the RGB image, and
    otherwise nearest-neighbour resamplings of the quantized image. *)
Theorem smooth_scaling_iff `{B : Imaging} (table : list Palette.rgb)
  (smooth_mip smart_mip : bool) (img : Indexed) (img_rgb : RgbImage) :
  let has_fb := has_fullbright img in
  let smooth := smooth_scaling smooth_mip smart_mip has_fb in
  (smooth = true <->
   smooth_mip = true \/
   (smart_mip = true /\
    forall x y,
      x < iwidth img -> y < iheight img -> getpixel img x y <= 223)) /\
  (forall i, 1 <= i <= 3 ->
   level_image table smooth has_fb img img_rgb i
   = if smooth
     then quantize (resize_rgb img_rgb (iwidth img / 2 ^ i)
                               (iheight img / 2 ^ i))
                   (if truthy has_fb then palette_image table
                    else palette_image_nofb table)
     else resize_indexed img (iwidth img / 2 ^ i) (iheight img / 2 ^ i)).
Proof.
  intros has_fb smooth. split.
  - pose proof (has_fullbright_run_hit img) as Htruth.
    rewrite <- truthy_has_fullbright in Htruth.
    fold has_fb in Htruth. unfold smooth, smooth_scaling.
    destruct smooth_mip; simpl; [tauto|].
    destruct smart_mip; simpl;
      [|split; [discriminate | intros [?|[? _]]; discriminate]].
    destruct (truthy has_fb); simpl; split.
    + discriminate.
    + intros [?|[_ Hall]]; [discriminate|].
      destruct Htruth as [Htruth _].
      destruct (Htruth eq_refl) as (x & y & Hx & Hy & Hpx).
      specialize (Hall x y Hx Hy). lia.
    + intros _. right. split; [done|]. intros x y Hx Hy.
      destruct (le_lt_dec (getpixel img x y) 223) as [|Hgt]; [done|].
      destruct Htruth as [_ Htruth].
      discriminate Htruth. by exists x, y.
    + done.
  - intros i Hi. unfold level_image, resized_image.
    destruct (Nat.ltb_spec 0 i); [done|lia].
Qed.

(** ** The reference implementation satisfies the laws *)

Section ReferenceLaws.

Import Reference.

Lemma argmin_from_least (f : nat -> Z) (k a best : nat) :
  best < a ->
  (forall j, j < best -> (f best < f j)%Z) ->
  (forall j, best <= j < a -> (f best <= f j)%Z) ->
  let r := argmin_from f best (seq a k) in
  r < a + k /\ forall j, j < r -> (f r < f j)%Z.
Proof.
  revert a best. induction k as [|k IH]; intros a best Hlt Hbelow Hupto; simpl.
  - split; [lia|done].
  - destruct (Z.ltb_spec (f a) (f best)) as [Hless|Hge].
    + destruct (IH (S a) a) as [Hr Hfirst]; [lia| | |].
      * intros j Hj. destruct (le_lt_dec best j).
        -- specialize (Hupto j ltac:(lia)). lia.
        -- specialize (Hbelow j ltac:(lia)). lia.
      * intros j Hj. by replace j with a by lia.
      * split; [lia|done].
    + destruct (IH (S a) best) as [Hr Hfirst]; [lia|done| |].
      * intros j Hj. destruct (decide (j = a)) as [->|]; [done|].
        apply Hupto. lia.
      * split; [lia|done].
Qed.

Lemma argmin_first (f : nat -> Z) :
  argmin f < 256 /\ forall j, j < argmin f -> (f (argmin f) < f j)%Z.
Proof.
  unfold argmin.
  generalize (argmin_from_least f 255 1 0). cbv zeta.
  generalize (argmin_from f 0 (seq 1 255)). intros r Hleast.
  destruct Hleast as [Hr Hfirst].
  - lia.
  - intros j Hj. lia.
  - intros j Hj. replace j with 0%nat by lia. lia.
  - split; [lia|exact Hfirst].
Qed.

Lemma nearest_index_first (pal : list Z) (c : Palette.rgb) :
  nearest_index pal c < 256 /\
  forall j, j < nearest_index pal c ->
    (distance c (Palette.entry pal (nearest_index pal c))
     < distance c (Palette.entry pal j))%Z.
Proof.
  unfold nearest_index.
  generalize (argmin_first (fun i => distance c (Palette.entry pal i))).
  generalize (argmin (fun i => distance c (Palette.entry pal i))).
  intros r Hr. exact Hr.
Qed.

Lemma reference_laws : ImagingLaws Reference.imaging.
Proof.
  split.
  - by intros p.
  - by intros p.
  - by intros r pal.
  - by intros r w h.
  - by intros img w h.
  - intros r pal i Hin.
    apply list_elem_of_fmap in Hin as (c & -> & _).
    apply nearest_index_first.
  - intros r pal i j Hin Hj Heq.
    apply list_elem_of_fmap in Hin as (c & -> & _).
    pose proof (proj2 (nearest_index_first pal c) j Hj) as Hless.
    rewrite Heq in Hless. lia.
  - intros img w h i Hin.
    apply list_elem_of_omap in Hin as (k & _ & Hk).
    by apply list_elem_of_lookup_2 in Hk.
Qed.
End ReferenceLaws.

(** ** Mip pyramid *)

Section Pyramid.

Context {B : Imaging}.

Variable table : list Palette.rgb.

(** The four rounds of the loop, written out. *)
Lemma build_mips_rounds (name : string) (smooth : bool) (has_fb : pyval)
  (img : Indexed) (img_rgb : RgbImage) :
  let data := level_data table smooth has_fb img img_rgb in
  build_mips table name smooth has_fb img img_rgb
  = {| mip_name := name;
       mip_width := iwidth img;
       mip_height := iheight img;
       mip_offsets := [40;
                       40 + length (data 0);
                       40 + length (data 0) + length (data 1);
                       40 + length (data 0) + length (data 1)
                       + length (data 2)];
       mip_pixels := data 0 ++ data 1 ++ data 2 ++ data 3 |}.
Proof.
  intros data. unfold build_mips, add_level. simpl.
  fold data. by rewrite <- !app_assoc.
Qed.

Lemma quantized_size (L : ImagingLaws B) (raw : bool) (pic : Picture) :
  iwidth (quantized table raw pic) = pic_width pic /\
  iheight (quantized table raw pic) = pic_height pic.
Proof.
  unfold quantized. destruct (negb (mode_is_P pic) || negb raw).
  - destruct (quantize_size B L (convert_rgb pic) (palette_image table)).
    destruct (convert_rgb_size B L pic). split; congruence.
  - apply (as_indexed_size B L).
Qed.

Lemma level_image_size (L : ImagingLaws B) (smooth : bool) (has_fb : pyval)
  (img : Indexed) (img_rgb : RgbImage) (i : nat) :
  iwidth (level_image table smooth has_fb img img_rgb i) = iwidth img / 2 ^ i /\
  iheight (level_image table smooth has_fb img img_rgb i) = iheight img / 2 ^ i.
Proof.
  unfold level_image. destruct (Nat.ltb_spec 0 i) as [Hpos|Hzero].
  - unfold resized_image. destruct smooth.
    + match goal with |- context [quantize ?r ?p] =>
        destruct (quantize_size B L r p) as [-> ->] end.
      apply (resize_rgb_size B L).
    + apply (resize_indexed_size B L).
  - replace i with 0 by lia. change (2 ^ 0) with 1. by rewrite !Nat.div_1_r.
Qed.

End Pyramid.

(** C5. The first offset is 40, the size of the fixed fields of a texture
    record (a 16-byte name, width, height and four offsets); each later
    offset is the one before it plus the number of pixel bytes of the
    level before it; and the directory entry gives, as file size and as
    disk size, 40 plus the pixel bytes of all four levels. *)
Theorem miptex_offsets_and_sizes `{B : Imaging}
  (table : list Palette.rgb) (raw smooth_mip smart_mip : bool)
  (file : string) (pic : Picture) :
  let img := quantized table raw pic in
  let has_fb := has_fullbright img in
  let smooth := smooth_scaling smooth_mip smart_mip has_fb in
  let len i :=
    length (level_data table smooth has_fb img (convert_rgb pic) i) in
  let mip := (miptex_of table raw smooth_mip smart_mip file pic).1 in
  let info := (miptex_of table raw smooth_mip smart_mip file pic).2 in
  miptex_header_size = 16 + 4 + 4 + 4 * 4 /\
  length (mip_offsets mip) = 4 /\
  mip_offsets mip !! 0 = Some miptex_header_size /\
  (forall i o, 1 <= i <= 3 ->
     mip_offsets mip !! (i - 1) = Some o ->
     mip_offsets mip !! i = Some (o + len (i - 1))) /\
  length (mip_pixels mip) = len 0 + len 1 + len 2 + len 3 /\
  file_size info = miptex_header_size + (len 0 + len 1 + len 2 + len 3) /\
  disk_size info = miptex_header_size + (len 0 + len 1 + len 2 + len 3).
Proof.
  intros img has_fb smooth len mip info.
  unfold mip, info, miptex_of. cbv zeta. unfold fst, snd.
  fold img. fold has_fb. fold smooth.
  rewrite build_mips_rounds. cbv zeta.
  unfold mip_offsets, mip_pixels, file_size, disk_size.
  split; [done|]. split; [done|]. split; [done|].
  split; [|rewrite !length_app; unfold len, miptex_header_size; lia].
  intros i o Hi Ho.
  assert (i = 1 \/ i = 2 \/ i = 3) as Hcases by lia.
  destruct Hcases as [-> | [-> | ->]];
    simpl in Ho; inversion Ho; subst; reflexivity.
Qed.

(** The 8 x 8 reference picture: levels of 64, 16, 4 and 1 bytes. *)
Example miptex_offsets_of_reference_picture :
  let B := Reference.imaging in
  let pic : Picture := Reference.flat_picture 5 in
  let r := miptex_of Reference.grey_table false false true "wall01.png" pic in
  mip_offsets r.1 = [40; 104; 120; 124] /\
  file_size r.2 = 125 /\ disk_size r.2 = 125 /\
  length (mip_pixels r.1) = 85.
Proof.
  vm_compute. repeat split.
Defined.

Lemma getpixel_bound (img : Indexed) (n x y : nat) :
  Forall (fun v => v <= n) (ipixels img) -> getpixel img x y <= n.
Proof.
  intros Hall. unfold getpixel.
  destruct (nth_in_or_default (y * iwidth img + x) (ipixels img) 0)
    as [Hin | ->]; [|lia].
  rewrite Forall_forall in Hall. apply Hall. by apply list_elem_of_In.
Qed.

(** Quantizing against the palette without fullbright gives no index
    above 223: the entries 224-255 have the colour of entry 0, which
    comes first. *)
Lemma quantize_nofb_below_224 `{B : Imaging} (L : ImagingLaws B)
  (table : list Palette.rgb) (r : RgbImage) (v : nat) :
  length table = 256 ->
  table !! 0 = Some Palette.black ->
  v ∈ ipixels (quantize r (palette_image_nofb table)) -> v <= 223.
Proof.
  intros Hlen Hblack Hin.
  pose proof (quantize_byte B L _ _ _ Hin) as Hbyte.
  destruct (le_lt_dec v 223) as [|Hhigh]; [done|]. exfalso.
  apply (quantize_first B L _ _ v 0 Hin); [lia|].
  rewrite (entry_palette_nofb_high table v Hlen) by lia.
  rewrite (entry_palette_nofb_low table 0 Hlen) by lia.
  unfold palette_image, palette. by rewrite (entry_flatten _ _ _ Hblack).
Qed.

(** C2. When the quantized image has no pixel above 223 and smooth
    scaling is used, each of the levels 1 to 3 is the RGB image, resized
    and quantized against the palette without fullbright, and has no
    pixel above 223. *)
Theorem smooth_mips_add_no_fullbright `{B : Imaging} (L : ImagingLaws B)
  (table : list Palette.rgb) (raw smooth_mip smart_mip : bool)
  (pic : Picture) (i : nat) :
  let img := quantized table raw pic in
  let img_rgb := convert_rgb pic in
  let has_fb := has_fullbright img in
  let smooth := smooth_scaling smooth_mip smart_mip has_fb in
  length table = 256 ->
  table !! 0 = Some Palette.black ->
  (forall x y, x < iwidth img -> y < iheight img -> getpixel img x y <= 223) ->
  smooth = true ->
  1 <= i <= 3 ->
  level_image table smooth has_fb img img_rgb i
  = quantize (resize_rgb img_rgb (iwidth img / 2 ^ i) (iheight img / 2 ^ i))
             (palette_image_nofb table) /\
  forall v, v ∈ level_data table smooth has_fb img img_rgb i -> v <= 223.
Proof.
  intros img img_rgb has_fb smooth Hlen Hblack Hnofb Hsmooth Hi.
  assert (truthy has_fb = false) as Hfb.
  { destruct (truthy has_fb) eqn:Htruth; [|done].
    unfold has_fb in Htruth. rewrite truthy_has_fullbright in Htruth.
    apply has_fullbright_run_hit in Htruth as (x & y & Hx & Hy & Hpx).
    specialize (Hnofb x y Hx Hy). lia. }
  assert (level_image table smooth has_fb img img_rgb i
          = quantize (resize_rgb img_rgb (iwidth img / 2 ^ i)
                                 (iheight img / 2 ^ i))
                     (palette_image_nofb table)) as Hlevel.
  { unfold level_image, resized_image. rewrite Hsmooth, Hfb.
    destruct (Nat.ltb_spec 0 i); [done|lia]. }
  split; [done|].
  intros v Hv. unfold level_data, tobytes in Hv. rewrite Hlevel in Hv.
  by apply (quantize_nofb_below_224 L table _ v Hlen Hblack Hv).
Qed.

(** C8. When nearest-neighbour scaling is used, each of the levels 1 to 3
    is the quantized image, resized, and every index in it is an index of
    level 0. *)
Theorem nearest_mips_keep_indices `{B : Imaging} (L : ImagingLaws B)
  (table : list Palette.rgb) (raw smooth_mip smart_mip : bool)
  (pic : Picture) (i : nat) :
  let img := quantized table raw pic in
  let img_rgb := convert_rgb pic in
  let has_fb := has_fullbright img in
  let smooth := smooth_scaling smooth_mip smart_mip has_fb in
  smooth = false ->
  1 <= i <= 3 ->
  level_image table smooth has_fb img img_rgb i
  = resize_indexed img (iwidth img / 2 ^ i) (iheight img / 2 ^ i) /\
  forall v, v ∈ level_data table smooth has_fb img img_rgb i ->
            v ∈ level_data table smooth has_fb img img_rgb 0.
Proof.
  intros img img_rgb has_fb smooth Hnearest Hi.
  assert (level_image table smooth has_fb img img_rgb i
          = resize_indexed img (iwidth img / 2 ^ i) (iheight img / 2 ^ i))
    as Hlevel.
  { unfold level_image, resized_image. rewrite Hnearest.
    destruct (Nat.ltb_spec 0 i); [done|lia]. }
  split; [done|].
  intros v Hv. unfold level_data, tobytes in *. rewrite Hlevel in Hv.
  apply (resize_indexed_nearest B L) in Hv. done.
Qed.

(** The 8 x 8 picture of index 5 under [--smart-mip]: no fullbright, so
    the scaling is smooth. *)
Lemma smooth_mips_add_no_fullbright_witness :
  let B := Reference.imaging in
  let pic : Picture := Reference.flat_picture 5 in
  let table := Reference.grey_table in
  let img := quantized table false pic in
  let img_rgb := convert_rgb pic in
  let has_fb := has_fullbright img in
  let smooth := smooth_scaling false true has_fb in
  (length table = 256 /\ table !! 0 = Some Palette.black /\
   smooth = true /\ 1 <= 1 <= 3) /\
  level_image table smooth has_fb img img_rgb 1
  = quantize (resize_rgb img_rgb (iwidth img / 2 ^ 1) (iheight img / 2 ^ 1))
             (palette_image_nofb table) /\
  forall v, v ∈ level_data table smooth has_fb img img_rgb 1 -> v <= 223.
Proof.
  intros B pic table img img_rgb has_fb smooth.
  assert (Forall (fun v => v <= 223) (ipixels img)) as Hall
    by (apply (bool_decide_eq_true_1 _); vm_compute; reflexivity).
  assert (smooth = true) as Hsmooth by (vm_compute; reflexivity).
  split; [|].
  { split; [reflexivity|]. split; [reflexivity|].
    split; [exact Hsmooth | lia]. }
  apply (smooth_mips_add_no_fullbright reference_laws table
           false false true pic 1).
  - reflexivity.
  - reflexivity.
  - intros x y _ _. by apply getpixel_bound.
  - exact Hsmooth.
  - lia.
Defined.

(** The 8 x 8 picture of index 250 under [--smart-mip]: fullbright, so
    the scaling is nearest neighbour. *)
Lemma nearest_mips_keep_indices_witness :
  let B := Reference.imaging in
  let pic : Picture := Reference.flat_picture 250 in
  let table := Reference.grey_table in
  let img := quantized table true pic in
  let img_rgb := convert_rgb pic in
  let has_fb := has_fullbright img in
  let smooth := smooth_scaling false true has_fb in
  (smooth = false /\ 1 <= 2 <= 3) /\
  level_image table smooth has_fb img img_rgb 2
  = resize_indexed img (iwidth img / 2 ^ 2) (iheight img / 2 ^ 2) /\
  forall v, v ∈ level_data table smooth has_fb img img_rgb 2 ->
            v ∈ level_data table smooth has_fb img img_rgb 0.
Proof.
  intros B pic table img img_rgb has_fb smooth.
  assert (smooth = false) as Hnearest by (vm_compute; reflexivity).
  split; [split; [exact Hnearest | lia]|].
  apply (nearest_mips_keep_indices reference_laws table
           true false true pic 2).
  - exact Hnearest.
  - lia.
Defined.

(** The levels of the two pictures, computed. *)
Example levels_of_reference_pictures :
  let B := Reference.imaging in
  let table := Reference.grey_table in
  mip_pixels (miptex_of table false false true "a.png"
                (Reference.flat_picture 5)).1 = replicate 85 5 /\
  mip_pixels (miptex_of table true false true "b.png"
                (Reference.flat_picture 250)).1 = replicate 85 250 /\
  mip_pixels (miptex_of table true true false "b.png"
                (Reference.flat_picture 250)).1 = replicate 85 250.
Proof. vm_compute. repeat split. Qed.

(** ** Entry names *)

Section Names.

Import Path.

Local Open Scope string_scope.

Lemma dotfree_cons (a : ascii) (s : string) :
  dotfree (String a s) <-> a <> extsep /\ dotfree s.
Proof.
  unfold dotfree. simpl. split.
  - intros Hall. split; [apply Hall; set_solver|].
    intros b Hb. apply Hall. set_solver.
  - intros [Ha Hs] b Hb. apply elem_of_cons in Hb as [->|Hb]; auto.
Qed.

Lemma append_cons (a : ascii) (s t : string) :
  String a s +:+ t = String a (s +:+ t).
Proof. reflexivity. Qed.

Lemma append_empty (t : string) : EmptyString +:+ t = t.
Proof. reflexivity. Qed.

Lemma dotfree_empty : dotfree EmptyString.
Proof. intros a Ha. simpl in Ha. set_solver. Qed.

Lemma split_nonempty (c : ascii) (s : string) : split c s <> [].
Proof.
  destruct s as [|a r]; simpl; [done|].
  destruct (Ascii.eqb a c); [done|]. by destruct (split c r).
Qed.

(** The first piece of [s.split('.')] is the part of [s] before its
    first dot. *)
Lemma split_head (s : string) :
  dotfree (hd EmptyString (split extsep s)) /\
  exists rest, s = hd EmptyString (split extsep s) +:+ rest /\
               (rest = EmptyString \/ exists r, rest = String extsep r).
Proof.
  induction s as [|a r [IHfree (rest & IHeq & IHrest)]]; simpl.
  - split; [apply dotfree_empty|]. exists EmptyString. by split; [|left].
  - destruct (Ascii.eqb_spec a extsep) as [->|Hne]; simpl.
    + split; [apply dotfree_empty|]. exists (String extsep r).
      split; [done|]. right. by exists r.
    + pose proof (split_nonempty extsep r) as Hnil.
      destruct (split extsep r) as [|h t]; [done|]. simpl in *.
      split; [by apply dotfree_cons|].
      exists rest. split; [rewrite append_cons; by f_equal|done].
Qed.

Lemma split_head_dotfree (s : string) :
  dotfree s -> hd EmptyString (split extsep s) = s.
Proof.
  induction s as [|a r IH]; simpl; [done|].
  intros [Ha Hr]%dotfree_cons.
  destruct (Ascii.eqb_spec a extsep) as [->|_]; [done|].
  specialize (IH Hr). pose proof (split_nonempty extsep r) as Hnil.
  destruct (split extsep r) as [|h t]; [done|]. simpl in *. by subst.
Qed.

Lemma split_head_app (s e : string) :
  dotfree s -> hd EmptyString (split extsep (s +:+ String extsep e)) = s.
Proof.
  induction s as [|a r IH].
  - intros _. reflexivity.
  - intros [Ha Hr]%dotfree_cons. rewrite append_cons. simpl.
    destruct (Ascii.eqb_spec a extsep) as [->|_]; [done|].
    specialize (IH Hr).
    pose proof (split_nonempty extsep (r +:+ String extsep e)) as Hnil.
    destruct (split extsep (r +:+ String extsep e)) as [|h t]; [done|].
    simpl in *. by subst.
Qed.

Lemma before_last_dot_dotfree (e : string) :
  dotfree e -> before_last_dot e = None.
Proof.
  induction e as [|a r IH]; simpl; [done|].
  intros [Ha Hr]%dotfree_cons. rewrite (IH Hr).
  by destruct (Ascii.eqb_spec a extsep).
Qed.

Lemma before_last_dot_app (s e : string) :
  dotfree e -> before_last_dot (s +:+ String extsep e) = Some s.
Proof.
  intros He. induction s as [|a r IH].
  - rewrite append_empty. simpl.
    by rewrite (before_last_dot_dotfree e He).
  - rewrite append_cons. simpl. by rewrite IH.
Qed.

Lemma stem_one_dot (s e : string) :
  s <> EmptyString -> dotfree s -> dotfree e ->
  stem (s +:+ String extsep e) = s.
Proof.
  intros Hs Hfree He. unfold stem. rewrite (before_last_dot_app s e He).
  destruct s as [|a r]; [done|].
  apply dotfree_cons in Hfree as [Ha _]. simpl.
  by destruct (Ascii.eqb_spec a extsep).
Qed.

Lemma stem_dotfree (s : string) : dotfree s -> stem s = s.
Proof. intros Hs. unfold stem. by rewrite (before_last_dot_dotfree s Hs). Qed.

End Names.

Example path_functions :
  Path.basename "textures/wall01.png" = "wall01.png"%string /\
  Path.basename "wall01.png" = "wall01.png"%string /\
  Path.dirname "out/tex.wad" = "out"%string /\
  Path.dirname "/tex.wad" = "/"%string /\
  Path.dirname "a//tex.wad" = "a"%string /\
  Path.dirname "tex.wad" = EmptyString /\
  Path.split "."%char "wall.01.png" = ["wall"; "01"; "png"]%string /\
  Path.lump_name "textures/wall01.png" = "wall01"%string /\
  Path.lump_name "wall01" = "wall01"%string /\
  Path.lump_name ".hidden.png" = EmptyString /\
  Path.stem ".hidden" = ".hidden"%string /\
  Path.stem "archive.tar.gz" = "archive.tar"%string.
Proof. vm_compute. repeat split. Qed.

(** C6, as stated, fails: for a file whose base name has two dots the
    entry is named by the part before the first dot, which is not the
    base name with its extension stripped. *)
Lemma lump_name_not_stem_counterexample :
  let B := Reference.imaging in
  let file := "textures/wall.01.png"%string in
  let pic : Picture := Reference.flat_picture 5 in
  Path.basename file = "wall.01.png"%string /\
  Path.stem (Path.basename file) = "wall.01"%string /\
  filename (miptex_of Reference.grey_table true false false file pic).2
  = "wall"%string /\
  filename (qpic_of Reference.grey_table true file pic).2 = "wall"%string /\
  Path.lump_name file <> Path.stem (Path.basename file).
Proof. vm_compute. repeat split. discriminate. Qed.

(** C6, amended. The name of a texture or picture entry is the part of
    the base name of the input file before its first dot, the whole base
    name when it has no dot. This is the base name with its extension
    stripped when the base name has no dot, or one dot that is not its
    first character: [wall01.png] is stored as [wall01]. *)
Theorem lump_name_is_base_before_first_dot `{B : Imaging}
  (table : list Palette.rgb) (raw smooth_mip smart_mip : bool)
  (file : string) (pic : Picture) :
  filename (miptex_of table raw smooth_mip smart_mip file pic).2
  = Path.lump_name file /\
  mip_name (miptex_of table raw smooth_mip smart_mip file pic).1
  = Path.lump_name file /\
  filename (qpic_of table raw file pic).2 = Path.lump_name file /\
  Path.dotfree (Path.lump_name file) /\
  (exists rest,
     Path.basename file = Path.lump_name file +:+ rest /\
     (rest = EmptyString \/ exists r, rest = String Path.extsep r)) /\
  (forall s e,
     Path.basename file = s +:+ String Path.extsep e ->
     s <> EmptyString -> Path.dotfree s -> Path.dotfree e ->
     Path.lump_name file = s /\ Path.stem (Path.basename file) = s) /\
  (Path.dotfree (Path.basename file) ->
   Path.lump_name file = Path.basename file /\
   Path.stem (Path.basename file) = Path.basename file) /\
  Path.lump_name "wall01.png" = "wall01"%string.
Proof.
  split; [|split; [|split]].
  - reflexivity.
  - unfold miptex_of. cbv zeta. unfold fst. by rewrite build_mips_rounds.
  - reflexivity.
  - unfold Path.lump_name.
    destruct (split_head (Path.basename file)) as [Hfree Hrest].
    split; [done|]. split; [done|]. split; [|split; [|reflexivity]].
    + intros s e -> Hs Hfs Hfe.
      by rewrite split_head_app, stem_one_dot.
    + intros Hfb. by rewrite split_head_dotfree, stem_dotfree.
Qed.

Lemma lump_name_is_base_before_first_dot_witness :
  let B := Reference.imaging in
  let pic : Picture := Reference.flat_picture 5 in
  filename (miptex_of Reference.grey_table true false false
              "wall01.png" pic).2 = Path.lump_name "wall01.png" /\
  Path.lump_name "wall01.png" = "wall01"%string /\
  Path.stem (Path.basename "wall01.png") = "wall01"%string.
Proof.
  intros B pic.
  destruct (lump_name_is_base_before_first_dot Reference.grey_table
              true false false "wall01.png" pic)
    as (Hname & _ & _ & _ & _ & Hone & _).
  split; [exact Hname|].
  apply (Hone "wall01"%string "png"%string).
  - reflexivity.
  - discriminate.
  - repeat (apply dotfree_cons; split; [discriminate|]). apply dotfree_empty.
  - repeat (apply dotfree_cons; split; [discriminate|]). apply dotfree_empty.
Defined.

(** ** Opening the archive *)




(** ** Failures *)

Section Failures.

Context {B : Imaging}.

Variable table : list Palette.rgb.
Variable image_open : string -> Picture + string.
Variable write_error : entry -> option string.
Variable parser_status : Z.

Lemma log_effect (args : Args) (message : string) (w : World) :
  exists out,
    log args message w
    = (mkWorld (fs_files w) (fs_dirs w) (handle w) out (stderr w), Ok tt).
Proof.
  unfold log. destruct (arg_quiet args).
  - exists (stdout w). by destruct w.
  - by eexists.
Qed.

Lemma wad_append_effect (e : entry) (w : World) :
  match wad_append write_error e w with
  | (w', Ok _) => appended e w w'
  | (w', Raise x) => w' = w /\ exists msg, x = Exception msg
  end.
Proof.
  unfold wad_append. destruct (write_error e) as [msg|].
  - split; [done|]. by exists msg.
  - destruct (handle w) as [h|] eqn:Hh.
    + exists h. by repeat split.
    + split; [done|]. by eexists.
Qed.

(** A logged line followed by a write: one entry more, or no change to
    the archive and an exception. *)
Lemma log_then_append (args : Args) (message : string) (e : entry)
  (w : World) :
  match (log args message;; wad_append write_error e) w with
  | (w', Ok _) => appended e w w'
  | (w', Raise x) =>
      untouched w w' /\ stderr w' = stderr w /\ exists msg, x = Exception msg
  end.
Proof.
  unfold mbind, M_bind, bind.
  destruct (log_effect args message w) as [out ->].
  pose proof (wad_append_effect e
    (mkWorld (fs_files w) (fs_dirs w) (handle w) out (stderr w))) as Heff.
  destruct (wad_append write_error e _) as [w' [[]|x]].
  - destruct Heff as (h & Hh & Hh' & Hf & Hd & He). by exists h.
  - destruct Heff as [-> Hx]. by repeat split.
Qed.

Lemma process_file_effect (args : Args) (file : string) (w : World) :
  match process_file table image_open write_error parser_status args file w
  with
  | (w', Ok _) => exists e, appended e w w'
  | (w', Raise x) => untouched w w' /\ failed_with parser_status w w' x
  end.
Proof.
  unfold process_file. destruct (arg_type args).
  - unfold add_lump, wad_write.
    pose proof (log_then_append args ("  adding: " +:+ file)
                  (FileEntry file) w) as Heff.
    destruct ((log args _;; wad_append write_error _) w) as [w' [[]|x]].
    + by eexists.
    + destruct Heff as (Hu & He & Hx). split; [done|]. by right.
  - unfold add_qpic, open_image, wad_writestr, mbind at 1, M_bind, bind.
    destruct (image_open file) as [img|msg].
    + destruct (qpic_of table (arg_raw_color_mode args) file img)
        as [qpic info].
      pose proof (log_then_append args ("  adding: " +:+ file)
                    (LumpEntry info (QpicData qpic)) w) as Heff.
      destruct ((log args _;; wad_append write_error _) w) as [w' [[]|x]].
      * by eexists.
      * destruct Heff as (Hu & He & Hx). split; [done|]. by right.
    + split; [done|]. right. split; [by exists msg|done].
  - unfold try_except, add_miptex, open_image, wad_writestr,
      mbind at 1, M_bind, bind.
    destruct (image_open file) as [img|msg].
    + destruct (miptex_of table (arg_raw_color_mode args)
                  (arg_smooth_mip args) (arg_smart_mip args) file img)
        as [mip info].
      pose proof (log_then_append args ("  adding: " +:+ file)
                    (LumpEntry info (MiptexData mip)) w) as Heff.
      destruct ((log args _;; wad_append write_error _) w) as [w' [[]|x]].
      * by eexists.
      * destruct Heff as ((Hh & Hf & Hd) & He & Hx).
        split; [done|]. left. split; [done|].
        exists (exn_message x). simpl. by rewrite He.
    + split; [done|]. left. split; [done|]. by exists msg.
Qed.

(** The loop over the inputs: either every input added its entry, or the
    loop ended at the first input that failed, with the entries of the
    inputs before it and with nothing done for those after it. *)
Lemma for_each_process (args : Args) (l : list string) (w : World) (h : Wad) :
  handle w = Some h ->
  match
    for_each (process_file table image_open write_error parser_status args)
             l w
  with
  | (w', Ok _) =>
      exists es,
        length es = length l /\
        handle w' = Some (mkWad (wad_path h) (wad_dir h ++ es)) /\
        fs_files w' = fs_files w /\ fs_dirs w' = fs_dirs w /\
        stderr w' = stderr w
  | (w', Raise x) =>
      exists pre file post wp es,
        l = pre ++ file :: post /\
        for_each (process_file table image_open write_error parser_status args)
                 pre w = (wp, Ok tt) /\
        process_file table image_open write_error parser_status args file wp
        = (w', Raise x) /\
        length es = length pre /\
        handle w' = Some (mkWad (wad_path h) (wad_dir h ++ es)) /\
        fs_files w' = fs_files w /\ fs_dirs w' = fs_dirs w /\
        failed_with parser_status w w' x
  end.
Proof.
  revert w h. induction l as [|file l IH]; intros w h Hh; simpl.
  - exists []. by rewrite app_nil_r; destruct h.
  - unfold mbind, M_bind, bind.
    pose proof (process_file_effect args file w) as Hstep.
    destruct (process_file _ _ _ _ args file w) as [w1 [[]|x]] eqn:Hrun.
    + destruct Hstep as (e & h' & Hh' & Hh1 & Hf1 & Hd1 & He1).
      rewrite Hh in Hh'. injection Hh' as <-.
      specialize (IH w1 _ Hh1). simpl in IH.
      destruct (for_each _ l w1) as [w2 [[]|x]] eqn:Hrest.
      * destruct IH as (es & Hlen & Hh2 & Hf2 & Hd2 & He2).
        exists (e :: es). simpl. rewrite <- app_assoc in Hh2.
        repeat split; try congruence. exact Hh2.
      * destruct IH as (pre & f & post & wp & es & -> & Hpre & Hf & Hlen
                        & Hh2 & Hf2 & Hd2 & Hfail).
        exists (file :: pre), f, post, wp, (e :: es). simpl.
        rewrite <- app_assoc in Hh2.
        repeat split; try congruence.
        -- unfold mbind, M_bind, bind. by rewrite Hrun.
        -- exact Hh2.
        -- unfold failed_with in *. by rewrite <- He1.
    + destruct Hstep as ((Hh1 & Hf1 & Hd1) & Hfail).
      exists [], file, l, w, []. simpl. rewrite app_nil_r.
      repeat split; try done. rewrite Hh1, Hh. by destruct h.
Qed.

End Failures.

Lemma choose_filemode_keeps (args : Args) (w w' : World) (mode : filemode) :
  choose_filemode args w = (w', Ok mode) ->
  fs_files w' = fs_files w /\ handle w' = handle w /\
  stdout w' = stdout w /\ stderr w' = stderr w.
Proof.
  unfold choose_filemode, mbind, M_bind, bind, mret, M_ret, ret, isfile,
    makedirs.
  destruct (existsb _ _); [done|]. by intros [= <- _].
Qed.

Lemma wad_open_opens (path : string) (mode : filemode) (w w' : World) :
  wad_open path mode w = (w', Ok tt) ->
  exists dir0,
    handle w' = Some (mkWad path dir0) /\
    fs_files w' !! path = Some (Archive dir0) /\
    fs_dirs w' = fs_dirs w /\ stdout w' = stdout w /\ stderr w' = stderr w.
Proof.
  unfold wad_open. destruct mode.
  - destruct (fs_files w !! path) as [[dir0|]|] eqn:Hpath; try done.
    intros [= <-]. by exists dir0.
  - destruct (bool_decide _); [done|]. intros [= <-]. exists [].
    simpl. by rewrite lookup_insert_eq.
Qed.

Example scenario_steps :
  choose_filemode (Scenario.args ["a.png"; "bad.png"; "c.png"]%string)
                  Scenario.empty_world
  = (Scenario.world_with_dir, Ok mode_w) /\
  wad_open "out/tex.wad" mode_w Scenario.world_with_dir
  = (Scenario.world_opened, Ok tt).
Proof. split; vm_compute; reflexivity. Qed.

(** The run of the scenario: [a.png] is added, [bad.png] ends the run with
    status 2 and one message, [c.png] is never opened, and the archive is
    closed with the one entry. Without [bad.png] the status is 0. *)
Example scenario_outcome :
  let failed := Scenario.run_command ["a.png"; "bad.png"; "c.png"]%string in
  let passed := Scenario.run_command ["a.png"; "c.png"]%string in
  let names w :=
    match fs_files w !! "out/tex.wad"%string with
    | Some (Archive d) =>
        map (fun e => match e with
                      | LumpEntry info _ => filename info
                      | FileEntry f => f
                      end) d
    | _ => []
    end in
  failed.2 = 2%Z /\
  stderr failed.1 = ["cannot identify image file"%string] /\
  stdout failed.1 = ["Archive: tex.wad"; "  adding: a.png"]%string /\
  handle failed.1 = None /\
  names failed.1 = ["a"%string] /\
  passed.2 = 0%Z /\
  stderr passed.1 = [] /\
  handle passed.1 = None /\
  names passed.1 = ["a"; "c"]%string.
Proof. vm_compute. repeat split. Qed.

(** In a world where [out/tex.wad] is an archive of one entry, the mode
    is ['a'] and the archive is opened with that entry; in the empty
    world the mode is ['w'] and the directory [out] is made. *)
Example filemode_of_scenario :
  let args := Scenario.args ["a.png"%string] in
  let old := [FileEntry "readme.txt"] in
  let w := {| fs_files := {["out/tex.wad"%string := Archive old]};
              fs_dirs := {["out"%string]}; handle := None;
              stdout := []; stderr := [] |} in
  (choose_filemode args w).2 = Ok mode_a /\
  handle (wad_open "out/tex.wad" mode_a (choose_filemode args w).1).1
  = Some (mkWad "out/tex.wad" old) /\
  (choose_filemode args Scenario.empty_world).2 = Ok mode_w /\
  fs_dirs (choose_filemode args Scenario.empty_world).1 = {["out"%string]}.
Proof. vm_compute. repeat split. Qed.

(** * Properties of the records and of whole runs *)

(** ** Fullbright detector on well-formed images *)

Lemma length_scan_order (img : Indexed) :
  length (scan_order img) = iwidth img * iheight img.
Proof.
  unfold scan_order.
  assert (forall ys : list nat,
            length (flat_map (fun y => map (fun x => (x, y))
                                           (seq 0 (iwidth img))) ys)
            = iwidth img * length ys) as Hrows.
  { induction ys as [|y ys IH]; simpl; [lia|].
    rewrite length_app, length_map, length_seq, IH. lia. }
  by rewrite Hrows, length_seq.
Qed.

(** The pixel at a position of a well-formed image is one of its bytes,
    and each byte is the pixel at some position. *)
Lemma getpixel_elem_of (img : Indexed) (x y : nat) :
  well_formed img -> x < iwidth img -> y < iheight img ->
  getpixel img x y ∈ ipixels img.
Proof.
  intros Hwf Hx Hy. unfold getpixel. apply list_elem_of_In, nth_In.
  rewrite Hwf. nia.
Qed.

Lemma elem_of_getpixel (img : Indexed) (v : nat) :
  well_formed img -> v ∈ ipixels img ->
  exists x y, x < iwidth img /\ y < iheight img /\ getpixel img x y = v.
Proof.
  intros Hwf Hv. apply list_elem_of_lookup in Hv as [k Hk].
  pose proof (lookup_lt_Some _ _ _ Hk) as Hlt. rewrite Hwf in Hlt.
  assert (0 < iwidth img) as Hw by nia.
  exists (k mod iwidth img), (k / iwidth img).
  split; [apply Nat.mod_upper_bound; lia|].
  split; [apply Nat.Div0.div_lt_upper_bound; lia|].
  unfold getpixel.
  replace (k / iwidth img * iwidth img + k mod iwidth img) with k
    by (rewrite (Nat.div_mod_eq k (iwidth img)) at 1; lia).
  by apply nth_lookup_Some with (d := 0) in Hk.
Qed.

(** X1. For an image that holds one byte for each position,
    [has_fullbright] is true exactly when one of the bytes of the image is
    above 223. *)
Theorem has_fullbright_iff_byte_above_223 (img : Indexed) :
  well_formed img ->
  (truthy (has_fullbright img) = true <->
   exists v, v ∈ tobytes img /\ 223 < v).
Proof.
  intros Hwf. rewrite truthy_has_fullbright, has_fullbright_run_hit.
  unfold tobytes. split.
  - intros (x & y & Hx & Hy & Hpx). exists (getpixel img x y).
    split; [by apply getpixel_elem_of|done].
  - intros (v & Hv & Hgt).
    destruct (elem_of_getpixel img v Hwf Hv) as (x & y & Hx & Hy & <-).
    by exists x, y.
Qed.

Lemma has_fullbright_iff_byte_above_223_witness :
  well_formed (mkIndexed 2 2 [0; 250; 7; 0]) /\
  (truthy (has_fullbright (mkIndexed 2 2 [0; 250; 7; 0])) = true <->
   exists v, v ∈ tobytes (mkIndexed 2 2 [0; 250; 7; 0]) /\ 223 < v).
Proof.
  split; [reflexivity|].
  apply (has_fullbright_iff_byte_above_223 (mkIndexed 2 2 [0; 250; 7; 0])).
  reflexivity.
Defined.

(** X2. [has_fullbright] never reads more pixels than the image has
    positions, and it reads every position once when it finds nothing. An
    image of no width or no height gives [None] without a read. *)
Theorem has_fullbright_reads (img : Indexed) :
  length (has_fullbright_probes img) <= iwidth img * iheight img /\
  (has_fullbright img = PyNone ->
   has_fullbright_probes img = scan_order img /\
   length (has_fullbright_probes img) = iwidth img * iheight img) /\
  (iwidth img = 0 \/ iheight img = 0 ->
   has_fullbright img = PyNone /\ has_fullbright_probes img = []).
Proof.
  pose proof (has_fullbright_run_stops img) as Hstop.
  pose proof (length_scan_order img) as Hlen.
  unfold has_fullbright, has_fullbright_probes, stops_at_first in *.
  destruct (has_fullbright_run img) as [hit seen]. simpl in *.
  destruct hit.
  - destruct Hstop as (pre & p & post & Horder & -> & _ & _).
    rewrite Horder, length_app in Hlen. simpl in Hlen.
    rewrite length_app. simpl.
    split; [lia|]. split; [done|].
    intros Hzero. exfalso. destruct Hzero as [Hz|Hz]; rewrite Hz in Hlen; lia.
  - destruct Hstop as [-> _].
    split; [lia|]. split; [done|].
    intros Hzero. split; [done|].
    apply length_zero_iff_nil.
    destruct Hzero as [Hz|Hz]; rewrite Hz in Hlen; lia.
Qed.

(** ** The texture record *)

(** X3. The offsets of a texture give its levels back: the bytes of level
    [i] are the bytes of [mip.pixels] that start [offset i - 40] bytes in,
    as many as the level has; every offset is at least 40 and the level it
    points to ends within the size given in the directory entry, the last
    level exactly at it. *)
Theorem miptex_levels_from_offsets `{B : Imaging}
  (table : list Palette.rgb) (raw smooth_mip smart_mip : bool)
  (file : string) (pic : Picture) :
  let img := quantized table raw pic in
  let has_fb := has_fullbright img in
  let smooth := smooth_scaling smooth_mip smart_mip has_fb in
  let level := level_data table smooth has_fb img (convert_rgb pic) in
  let mip := (miptex_of table raw smooth_mip smart_mip file pic).1 in
  let info := (miptex_of table raw smooth_mip smart_mip file pic).2 in
  (forall i, i <= 3 ->
     exists o,
       mip_offsets mip !! i = Some o /\
       40 <= o /\
       o + length (level i) <= file_size info /\
       take (length (level i)) (drop (o - 40) (mip_pixels mip)) = level i) /\
  (forall o, mip_offsets mip !! 3 = Some o ->
     o + length (level 3) = file_size info) /\
  (forall i j oi oj,
     i <= j -> mip_offsets mip !! i = Some oi ->
     mip_offsets mip !! j = Some oj -> oi <= oj).
Proof.
  intros img has_fb smooth level mip info.
  unfold mip, info, miptex_of. cbv zeta. unfold fst, snd.
  fold img. fold has_fb. fold smooth.
  rewrite build_mips_rounds. cbv zeta. fold level.
  unfold mip_offsets, mip_pixels, file_size.
  rewrite !length_app.
  split; [|split].
  - intros i Hi.
    assert (i = 0 \/ i = 1 \/ i = 2 \/ i = 3) as Hcases by lia.
    destruct Hcases as [-> | [-> | [-> | ->]]]; eexists;
      (split; [reflexivity|]); (split; [lia|]); (split; [lia|]).
    + replace (40 - 40) with 0 by lia. by rewrite drop_0, take_app_length.
    + replace (40 + length (level 0) - 40) with (length (level 0)) by lia.
      by rewrite drop_app_length, take_app_length.
    + replace (40 + length (level 0) + length (level 1) - 40)
        with (length (level 0) + length (level 1)) by lia.
      rewrite (app_assoc (level 0)), <- length_app.
      by rewrite drop_app_length, take_app_length.
    + replace (40 + length (level 0) + length (level 1) + length (level 2) - 40)
        with (length (level 0) + length (level 1) + length (level 2)) by lia.
      replace (level 0 ++ level 1 ++ level 2 ++ level 3)
        with ((level 0 ++ level 1 ++ level 2) ++ level 3)
        by (by rewrite <- !app_assoc).
      replace (length (level 0) + length (level 1) + length (level 2))
        with (length (level 0 ++ level 1 ++ level 2))
        by (rewrite !length_app; lia).
      by rewrite drop_app_length, take_ge.
  - intros o [= <-]. lia.
  - intros i j oi oj Hij Hoi Hoj.
    destruct i as [|[|[|[|i]]]]; simpl in Hoi; try done;
      destruct j as [|[|[|[|j]]]]; simpl in Hoj; try done;
      injection Hoi as <-; injection Hoj as <-; lia.
Qed.

Lemma no_fullbright_not_truthy (img : Indexed) :
  Forall (fun v => v <= 223) (ipixels img) ->
  truthy (has_fullbright img) = false.
Proof.
  intros Hall. destruct (truthy (has_fullbright img)) eqn:Htruth; [|done].
  rewrite truthy_has_fullbright in Htruth.
  apply has_fullbright_run_hit in Htruth as (x & y & _ & _ & Hpx).
  pose proof (getpixel_bound img 223 x y Hall). lia.
Qed.

Lemma level_data_no_fullbright `{B : Imaging} (L : ImagingLaws B)
  (table : list Palette.rgb) (smooth : bool) (img : Indexed)
  (img_rgb : RgbImage) (i : nat) :
  length table = 256 ->
  table !! 0 = Some Palette.black ->
  Forall (fun v => v <= 223) (ipixels img) ->
  Forall (fun v => v <= 223)
         (level_data table smooth (has_fullbright img) img img_rgb i).
Proof.
  intros Hlen Hblack Hall.
  unfold level_data, level_image, tobytes.
  destruct (0 <? i); [|done].
  unfold resized_image. destruct smooth.
  - rewrite (no_fullbright_not_truthy img Hall).
    apply Forall_forall. intros v Hv.
    by apply (quantize_nofb_below_224 L table _ v Hlen Hblack Hv).
  - apply Forall_forall. intros v Hv.
    apply (resize_indexed_nearest B L) in Hv.
    rewrite Forall_forall in Hall. by apply Hall.
Qed.

(** X4. Whatever the flags, a texture made from a quantized image with no
    byte above 223 has no byte above 223 in any of its levels: neither
    scaling brings in a fullbright index. *)
Theorem texture_without_fullbright `{B : Imaging} (L : ImagingLaws B)
  (table : list Palette.rgb) (raw smooth_mip smart_mip : bool)
  (file : string) (pic : Picture) :
  length table = 256 ->
  table !! 0 = Some Palette.black ->
  Forall (fun v => v <= 223) (tobytes (quantized table raw pic)) ->
  Forall (fun v => v <= 223)
         (mip_pixels (miptex_of table raw smooth_mip smart_mip file pic).1).
Proof.
  intros Hlen Hblack Hall. unfold miptex_of. cbv zeta. unfold fst.
  rewrite build_mips_rounds. cbv zeta. unfold mip_pixels.
  repeat (apply Forall_app; split);
    by apply level_data_no_fullbright.
Qed.

Lemma texture_without_fullbright_witness :
  let B := Reference.imaging in
  let pic : Picture := Reference.flat_picture 5 in
  let table := Reference.grey_table in
  (length table = 256 /\ table !! 0 = Some Palette.black /\
   Forall (fun v => v <= 223) (tobytes (quantized table false pic))) /\
  Forall (fun v => v <= 223)
         (mip_pixels (miptex_of table false true false "a.png" pic).1).
Proof.
  intros B pic table.
  assert (Forall (fun v => v <= 223) (tobytes (quantized table false pic)))
    as Hall by (apply (bool_decide_eq_true_1 _); vm_compute; reflexivity).
  split; [split; [reflexivity | split; [reflexivity | exact Hall]]|].
  apply (texture_without_fullbright reference_laws table
           false true false "a.png" pic);
    [reflexivity | reflexivity | exact Hall].
Defined.

(** X5. With [--raw-indexed], a picture of mode [P] and nearest-neighbour
    scaling, no colour is looked up at all: level 0 is the index plane of
    the picture as it is, and every byte of the texture is an index that
    occurs in the picture. *)
Theorem raw_texture_keeps_source_indices `{B : Imaging} (L : ImagingLaws B)
  (table : list Palette.rgb) (smooth_mip smart_mip : bool)
  (file : string) (pic : Picture) :
  mode_is_P pic = true ->
  smooth_scaling smooth_mip smart_mip (has_fullbright (as_indexed pic))
  = false ->
  let mip := (miptex_of table true smooth_mip smart_mip file pic).1 in
  quantized table true pic = as_indexed pic /\
  take (length (ipixels (as_indexed pic))) (mip_pixels mip)
  = ipixels (as_indexed pic) /\
  forall v, v ∈ mip_pixels mip -> v ∈ ipixels (as_indexed pic).
Proof.
  intros Hmode Hnearest mip.
  assert (quantized table true pic = as_indexed pic) as Hq
    by (unfold quantized; by rewrite Hmode).
  unfold mip, miptex_of. cbv zeta. unfold fst.
  rewrite build_mips_rounds. cbv zeta. unfold mip_pixels.
  rewrite Hq, Hnearest.
  assert (forall i v,
            v ∈ level_data table false (has_fullbright (as_indexed pic))
                  (as_indexed pic) (convert_rgb pic) i ->
            v ∈ ipixels (as_indexed pic)) as Hlevel.
  { intros i v. unfold level_data, level_image, resized_image, tobytes.
    destruct (0 <? i); [|done]. apply (resize_indexed_nearest B L). }
  split; [done|]. split.
  - change (level_data table false (has_fullbright (as_indexed pic))
              (as_indexed pic) (convert_rgb pic) 0)
      with (ipixels (as_indexed pic)).
    by rewrite take_app_length.
  - intros v Hv. rewrite !elem_of_app in Hv.
    destruct Hv as [Hv | [Hv | [Hv | Hv]]]; by apply Hlevel in Hv.
Qed.

Lemma raw_texture_keeps_source_indices_witness :
  let B := Reference.imaging in
  let pic : Picture := Reference.flat_picture 250 in
  let table := Reference.grey_table in
  let mip := (miptex_of table true false true "b.png" pic).1 in
  (mode_is_P pic = true /\
   smooth_scaling false true (has_fullbright (as_indexed pic)) = false) /\
  quantized table true pic = as_indexed pic /\
  take (length (ipixels (as_indexed pic))) (mip_pixels mip)
  = ipixels (as_indexed pic) /\
  forall v, v ∈ mip_pixels mip -> v ∈ ipixels (as_indexed pic).
Proof.
  intros B pic table mip.
  assert (smooth_scaling false true (has_fullbright (as_indexed pic)) = false)
    as Hnearest by (vm_compute; reflexivity).
  split; [split; [reflexivity | exact Hnearest]|].
  apply (raw_texture_keeps_source_indices reference_laws table
           false true "b.png" pic); [reflexivity | exact Hnearest].
Defined.

(** ** Sizes of the lumps *)

Section ReferenceShapes.

Import Reference.

Lemma length_flat_map_rows {A C : Type} (f : A -> list C) (n : nat)
  (l : list A) :
  (forall a, length (f a) = n) -> length (flat_map f l) = n * length l.
Proof.
  intros Hf. induction l as [|a l IH]; simpl; [lia|].
  rewrite length_app, Hf, IH. lia.
Qed.

Lemma length_sample_positions (W H w h : nat) :
  length (sample_positions W H w h) = w * h.
Proof.
  unfold sample_positions.
  rewrite (length_flat_map_rows _ w), length_seq; [done|].
  intros y. by rewrite length_map, length_seq.
Qed.

Lemma sample_positions_bound (W H w h k : nat) :
  0 < W -> 0 < H -> k ∈ sample_positions W H w h -> k < W * H.
Proof.
  intros HW HH Hk. unfold sample_positions in Hk.
  apply list_elem_of_In, in_flat_map in Hk as (y & Hy & Hk).
  apply in_map_iff in Hk as (x & <- & Hx).
  apply in_seq in Hy, Hx.
  assert ((2 * y + 1) * H / (2 * h) < H) as Hrow
    by (apply Nat.Div0.div_lt_upper_bound; nia).
  assert ((2 * x + 1) * W / (2 * w) < W) as Hcol
    by (apply Nat.Div0.div_lt_upper_bound; nia).
  nia.
Qed.

Lemma length_omap_lookup {A : Type} (pix : list A) (ks : list nat) :
  Forall (fun k => k < length pix) ks ->
  length (omap (fun k => pix !! k) ks) = length ks.
Proof.
  induction 1 as [|k ks Hk _ IH]; simpl; [done|].
  destruct (lookup_lt_is_Some_2 pix k Hk) as [v ->]. simpl.
  f_equal. exact IH.
Qed.

Lemma length_resample {A : Type} (W H : nat) (pix : list A) (w h : nat) :
  length pix = W * H -> 0 < W -> 0 < H ->
  length (resample W H pix w h) = w * h.
Proof.
  intros Hlen HW HH. unfold resample.
  rewrite length_omap_lookup, length_sample_positions; [done|].
  apply Forall_forall. intros k Hk. rewrite Hlen.
  by apply (sample_positions_bound W H w h).
Qed.

Lemma reference_shapes : ImagingShapes Reference.imaging.
Proof.
  split.
  - intros r pal Hr. unfold well_formed. simpl. by rewrite length_map.
  - intros r w h Hr HW HH. unfold well_formed_rgb. simpl.
    by apply length_resample.
  - intros img w h Himg HW HH. unfold well_formed. simpl.
    by apply length_resample.
Qed.

End ReferenceShapes.

Section Sizes.

Context {B : Imaging}.

Variable table : list Palette.rgb.
Hypothesis L : ImagingLaws B.
Hypothesis Sh : ImagingShapes B.

Lemma quantized_shape (raw : bool) (pic : Picture) :
  well_formed_picture pic -> well_formed (quantized table raw pic).
Proof.
  intros [Hrgb Hidx]. unfold quantized.
  destruct (mode_is_P pic); simpl.
  - destruct raw; simpl; [by apply Hidx|by apply (quantize_shape B Sh)].
  - by apply (quantize_shape B Sh).
Qed.

Lemma level_image_shape (raw smooth : bool) (has_fb : pyval)
  (pic : Picture) (i : nat) :
  well_formed_picture pic -> 0 < pic_width pic -> 0 < pic_height pic ->
  well_formed (level_image table smooth has_fb (quantized table raw pic)
                 (convert_rgb pic) i).
Proof.
  intros Hpic HW HH.
  pose proof (quantized_shape raw pic Hpic) as Himg.
  destruct (quantized_size table L raw pic) as [Hw Hh].
  destruct (convert_rgb_size B L pic) as [Hrw Hrh].
  unfold level_image. destruct (0 <? i); [|done].
  unfold resized_image. destruct smooth.
  - apply (quantize_shape B Sh), (resize_rgb_shape B Sh); [apply Hpic|lia|lia].
  - apply (resize_indexed_shape B Sh); [done|lia|lia].
Qed.

Lemma length_level_data (raw smooth : bool) (has_fb : pyval)
  (pic : Picture) (i : nat) :
  well_formed_picture pic -> 0 < pic_width pic -> 0 < pic_height pic ->
  length (level_data table smooth has_fb (quantized table raw pic)
            (convert_rgb pic) i)
  = (pic_width pic / 2 ^ i) * (pic_height pic / 2 ^ i).
Proof.
  intros Hpic HW HH. unfold level_data, tobytes.
  rewrite (level_image_shape raw smooth has_fb pic i Hpic HW HH).
  destruct (level_image_size table L smooth has_fb
              (quantized table raw pic) (convert_rgb pic) i) as [-> ->].
  by destruct (quantized_size table L raw pic) as [-> ->].
Qed.

End Sizes.

(** C4. The texture holds the pixels of exactly four levels, one after
    the other; level [i] is [W / 2^i] wide and [H / 2^i] high, where [W]
    and [H] are the width and height of the source picture, and for a
    picture that has pixels it holds one byte for each of these
    positions, [(W / 2^i) * (H / 2^i)] bytes; level 0 is the quantized
    image itself. *)
Theorem mip_pyramid_levels `{B : Imaging} (L : ImagingLaws B)
  (table : list Palette.rgb) (raw smooth_mip smart_mip : bool)
  (file : string) (pic : Picture) :
  let img := quantized table raw pic in
  let has_fb := has_fullbright img in
  let smooth := smooth_scaling smooth_mip smart_mip has_fb in
  let level := level_image table smooth has_fb img (convert_rgb pic) in
  let mip := (miptex_of table raw smooth_mip smart_mip file pic).1 in
  mip_pixels mip
  = tobytes (level 0) ++ tobytes (level 1) ++ tobytes (level 2)
    ++ tobytes (level 3) /\
  length (mip_offsets mip) = 4 /\
  (forall i, i <= 3 ->
     iwidth (level i) = pic_width pic / 2 ^ i /\
     iheight (level i) = pic_height pic / 2 ^ i) /\
  (ImagingShapes B -> well_formed_picture pic ->
   0 < pic_width pic -> 0 < pic_height pic ->
   forall i, i <= 3 ->
     well_formed (level i) /\
     length (tobytes (level i))
     = (pic_width pic / 2 ^ i) * (pic_height pic / 2 ^ i)) /\
  level 0 = img /\
  tobytes (level 0) = ipixels img /\
  mip_width mip = pic_width pic /\ mip_height mip = pic_height pic.
Proof.
  intros img has_fb smooth level mip.
  destruct (quantized_size table L raw pic) as [Hw Hh]. fold img in Hw, Hh.
  unfold mip, miptex_of. cbv zeta. unfold fst.
  rewrite build_mips_rounds. simpl.
  split; [done|]. split; [done|]. split; [|split; [|done]].
  - intros i Hi.
    destruct (level_image_size table L smooth has_fb img (convert_rgb pic) i)
      as [Hlw Hlh].
    unfold level. by rewrite Hlw, Hlh, Hw, Hh.
  - intros Sh Hpic HW HH i Hi. split.
    + apply (level_image_shape table L Sh raw smooth has_fb pic i Hpic HW HH).
    + apply (length_level_data table L Sh raw smooth has_fb pic i Hpic HW HH).
Qed.

(** The 8 x 8 reference picture: levels of 8 x 8, 4 x 4, 2 x 2 and 1 x 1,
    of 64, 16, 4 and 1 bytes. *)
Lemma mip_pyramid_levels_witness :
  let B := Reference.imaging in
  let pic : Picture := Reference.flat_picture 5 in
  let table := Reference.grey_table in
  let img := quantized table false pic in
  let has_fb := has_fullbright img in
  let smooth := smooth_scaling false true has_fb in
  let level := level_image table smooth has_fb img (convert_rgb pic) in
  let mip := (miptex_of table false false true "wall01.png" pic).1 in
  (well_formed_picture pic /\ 0 < pic_width pic /\ 0 < pic_height pic) /\
  mip_pixels mip
  = tobytes (level 0) ++ tobytes (level 1) ++ tobytes (level 2)
    ++ tobytes (level 3) /\
  (forall i, i <= 3 ->
     iwidth (level i) = pic_width pic / 2 ^ i /\
     iheight (level i) = pic_height pic / 2 ^ i) /\
  (forall i, i <= 3 ->
     well_formed (level i) /\
     length (tobytes (level i))
     = (pic_width pic / 2 ^ i) * (pic_height pic / 2 ^ i)) /\
  level 0 = img.
Proof.
  intros B pic table img has_fb smooth level mip.
  assert (well_formed_picture pic) as Hpic by (split; [|intros _]; reflexivity).
  assert (0 < pic_width pic) as HW by (simpl; lia).
  assert (0 < pic_height pic) as HH by (simpl; lia).
  split; [done|].
  destruct (mip_pyramid_levels reference_laws Reference.grey_table
              false false true "wall01.png" pic)
    as (Hpixels & _ & Hsizes & Hbytes & Hlevel0 & _).
  split; [exact Hpixels|]. split; [exact Hsizes|].
  split; [exact (Hbytes reference_shapes Hpic HW HH) | exact Hlevel0].
Defined.

(** X6. The size of a texture follows from the size of the picture: for a
    picture of [W] by [H] pixels the four levels take [W*H],
    [(W/2)*(H/2)], [(W/4)*(H/4)] and [(W/8)*(H/8)] bytes, the offsets are
    40 and the running sums of the first three, and the entry's size is
    40 plus all four. *)
Theorem miptex_size_of_picture `{B : Imaging}
  (L : ImagingLaws B) (Sh : ImagingShapes B)
  (table : list Palette.rgb) (raw smooth_mip smart_mip : bool)
  (file : string) (pic : Picture) :
  well_formed_picture pic -> 0 < pic_width pic -> 0 < pic_height pic ->
  let W := pic_width pic in
  let H := pic_height pic in
  let r := miptex_of table raw smooth_mip smart_mip file pic in
  mip_offsets r.1
  = [40; 40 + W * H; 40 + W * H + (W / 2) * (H / 2);
     40 + W * H + (W / 2) * (H / 2) + (W / 4) * (H / 4)] /\
  length (mip_pixels r.1)
  = W * H + (W / 2) * (H / 2) + (W / 4) * (H / 4) + (W / 8) * (H / 8) /\
  file_size r.2
  = 40 + (W * H + (W / 2) * (H / 2) + (W / 4) * (H / 4) + (W / 8) * (H / 8)).
Proof.
  intros Hpic HW HH W H r.
  unfold r, miptex_of. cbv zeta. unfold fst, snd.
  rewrite build_mips_rounds. cbv zeta.
  unfold mip_offsets, mip_pixels, file_size.
  rewrite !length_app.
  rewrite !(length_level_data table L Sh raw _ _ pic _ Hpic HW HH).
  fold W. fold H.
  change (2 ^ 0) with 1. change (2 ^ 1) with 2.
  change (2 ^ 2) with 4. change (2 ^ 3) with 8.
  rewrite !Nat.div_1_r. repeat split; lia.
Qed.

Lemma miptex_size_of_picture_witness :
  let B := Reference.imaging in
  let pic : Picture := Reference.flat_picture 5 in
  let r := miptex_of Reference.grey_table false true false "a.png" pic in
  (well_formed_picture pic /\ 0 < pic_width pic /\ 0 < pic_height pic) /\
  mip_offsets r.1 = [40; 104; 120; 124] /\
  length (mip_pixels r.1) = 85 /\
  file_size r.2 = 125.
Proof.
  intros B pic r.
  assert (well_formed_picture pic) as Hpic by (split; [|intros _]; reflexivity).
  assert (0 < pic_width pic) as HW by (simpl; lia).
  assert (0 < pic_height pic) as HH by (simpl; lia).
  split; [done|].
  exact (miptex_size_of_picture reference_laws reference_shapes
           Reference.grey_table false true false "a.png" pic Hpic HW HH).
Defined.

(** X7. A picture lump has the width and height of the picture and one
    byte for each of its positions; its entry is of type [QPIC], not
    compressed, named after the file, and its two sizes are 8 plus the
    number of positions. *)
Theorem qpic_of_picture `{B : Imaging}
  (L : ImagingLaws B) (Sh : ImagingShapes B)
  (table : list Palette.rgb) (raw : bool) (file : string) (pic : Picture) :
  well_formed_picture pic ->
  let r := qpic_of table raw file pic in
  lmp_width r.1 = pic_width pic /\
  lmp_height r.1 = pic_height pic /\
  length (lmp_pixels r.1) = pic_width pic * pic_height pic /\
  file_size r.2 = 8 + pic_width pic * pic_height pic /\
  disk_size r.2 = file_size r.2 /\
  info_type r.2 = QPIC /\ compression r.2 = NONE /\
  filename r.2 = Path.lump_name file.
Proof.
  intros Hpic r. unfold r, qpic_of. cbv zeta. simpl.
  pose proof (quantized_shape table Sh raw pic Hpic) as Hwf.
  destruct (quantized_size table L raw pic) as [Hw Hh].
  unfold well_formed in Hwf. unfold tobytes.
  rewrite Hwf, Hw, Hh. by repeat split.
Qed.

Lemma qpic_of_picture_witness :
  let B := Reference.imaging in
  let pic : Picture := Reference.flat_picture 5 in
  let r := qpic_of Reference.grey_table false "conchars.png" pic in
  well_formed_picture pic /\
  lmp_width r.1 = pic_width pic /\
  lmp_height r.1 = pic_height pic /\
  length (lmp_pixels r.1) = pic_width pic * pic_height pic /\
  file_size r.2 = 8 + pic_width pic * pic_height pic /\
  disk_size r.2 = file_size r.2 /\
  info_type r.2 = QPIC /\ compression r.2 = NONE /\
  filename r.2 = Path.lump_name "conchars.png".
Proof.
  intros B pic r.
  assert (well_formed_picture pic) as Hpic by (split; [|intros _]; reflexivity).
  split; [done|].
  exact (qpic_of_picture reference_laws reference_shapes
           Reference.grey_table false "conchars.png" pic Hpic).
Defined.

(** ** The run as a whole *)

Lemma choose_filemode_cases (args : Args) (w : World) :
  match choose_filemode args w with
  | (w', Ok mode) =>
      mode = (if bool_decide (is_Some (fs_files w !! arg_file args))
              then mode_a else mode_w) /\
      fs_files w' = fs_files w /\ handle w' = handle w /\
      stdout w' = stdout w /\ stderr w' = stderr w
  | (w', Raise x) => w' = w /\ exists msg, x = Exception msg
  end.
Proof.
  unfold choose_filemode, mbind, M_bind, bind, mret, M_ret, ret, isfile,
    makedirs.
  destruct (existsb _ _); [by split; [|eexists]|]. simpl.
  by destruct (bool_decide _).
Qed.

Lemma wad_open_cases (path : string) (mode : filemode) (w : World) :
  match wad_open path mode w with
  | (w', Ok _) =>
      exists d,
        handle w' = Some (mkWad path d) /\
        stdout w' = stdout w /\ stderr w' = stderr w /\
        match mode with
        | mode_a =>
            fs_files w !! path = Some (Archive d) /\ fs_files w' = fs_files w
        | mode_w =>
            d = [] /\ fs_files w' = <[path := Archive []]> (fs_files w)
        end
  | (w', Raise x) => w' = w /\ exists msg, x = Exception msg
  end.
Proof.
  unfold wad_open. destruct mode.
  - destruct (fs_files w !! path) as [[d|]|] eqn:Hpath.
    + by exists d.
    + by split; [|eexists].
    + by split; [|eexists].
  - destruct (bool_decide _).
    + by split; [|eexists].
    + by exists [].
Qed.

Section Runs.

Context {B : Imaging}.

Variable table : list Palette.rgb.
Variable image_open : string -> Picture + string.
Variable write_error : entry -> option string.
Variable parser_status : Z.

(** [main] stage by stage: the check of the list, the choice of the mode,
    the opening, and the loop inside the [with] block. *)
Lemma main_stages (args : Args) (w0 : World) :
  main table image_open write_error parser_status args w0
  = match arg_list args with
    | [] =>
        (mkWorld (fs_files w0) (fs_dirs w0) (handle w0) (stdout w0)
           (stderr w0 ++ ["the following arguments are required: list"]),
         Raise (SystemExit parser_status))
    | _ =>
        match choose_filemode args w0 with
        | (w1, Raise x) => (w1, Raise x)
        | (w1, Ok mode) =>
            match wad_open (arg_file args) mode w1 with
            | (w2, Raise x) => (w2, Raise x)
            | (w2, Ok _) =>
                let '(w3, r) :=
                  for_each (process_file table image_open write_error
                              parser_status args)
                           (arg_list args)
                           (log args
                              ("Archive: " +:+ Path.basename (arg_file args))
                              w2).1 in
                (wad_close w3,
                 match r with
                 | Ok _ => Raise (SystemExit 0)
                 | Raise x => Raise x
                 end)
            end
        end
    end.
Proof.
  unfold main, mbind at 1 2 3, M_bind, bind.
  destruct (arg_list args) as [|file files] eqn:Hargs; [done|].
  unfold ret at 1.
  destruct (choose_filemode args w0) as [w1 [mode|x]]; [|done].
  unfold with_wadfile.
  destruct (wad_open (arg_file args) mode w1) as [w2 [[]|x]]; [|done].
  unfold mbind at 1, M_bind, bind.
  destruct (log_effect args
              ("Archive: " +:+ Path.basename (arg_file args)) w2)
    as [out ->].
  cbn [fst].
  destruct (for_each _ (file :: files) _) as [w3 [[]|x]]; reflexivity.
Qed.

End Runs.

Section RunFacts.

Context {B : Imaging}.

Variable table : list Palette.rgb.
Variable image_open : string -> Picture + string.
Variable write_error : entry -> option string.
Variable parser_status : Z.

Lemma log_then_append_detail (args : Args) (file : string) (e : entry)
  (w : World) :
  match (log args ("  adding: " +:+ file);; wad_append write_error e) w with
  | (w', Ok _) =>
      write_error e = None /\
      exists h,
        handle w = Some h /\
        handle w' = Some (mkWad (wad_path h) (wad_dir h ++ [e])) /\
        stdout w' = stdout w ++ progress args [file] /\
        stderr w' = stderr w /\ fs_files w' = fs_files w
  | (w', Raise x) =>
      (exists msg, x = Exception msg) /\ stderr w' = stderr w /\
      (arg_quiet args = true -> stdout w' = stdout w)
  end.
Proof.
  unfold mbind, M_bind, bind, log, progress, wad_append.
  destruct (arg_quiet args); simpl;
    (destruct (write_error e) as [msg|]; [by split; [eexists|]|]);
    (destruct (handle w) as [h|]; [|by split; [eexists|]]); simpl.
  - split; [done|]. exists h. by rewrite app_nil_r.
  - split; [done|]. by exists h.
Qed.

(** One round of the loop, in full: the entry added and the line printed,
    or the way the round failed. *)
Lemma process_file_detail (args : Args) (file : string) (w : World) :
  match process_file table image_open write_error parser_status args file w
  with
  | (w', Ok _) =>
      exists e h,
        entry_from table image_open args file e /\
        handle w = Some h /\
        handle w' = Some (mkWad (wad_path h) (wad_dir h ++ [e])) /\
        stdout w' = stdout w ++ progress args [file] /\
        stderr w' = stderr w /\ fs_files w' = fs_files w
  | (w', Raise x) =>
      (arg_quiet args = true -> stdout w' = stdout w) /\
      match arg_type args with
      | MIPTEX =>
          x = SystemExit parser_status /\
          exists msg, stderr w' = stderr w ++ [msg]
      | _ => (exists msg, x = Exception msg) /\ stderr w' = stderr w
      end
  end.
Proof.
  unfold process_file, entry_from. destruct (arg_type args).
  - unfold add_lump, wad_write.
    pose proof (log_then_append_detail args file (FileEntry file) w) as Heff.
    destruct ((log args _;; wad_append write_error _) w) as [w' [[]|x]].
    + destruct Heff as (_ & h & Hh). by exists (FileEntry file), h.
    + by destruct Heff as (Hx & He & Hq).
  - unfold add_qpic, open_image, wad_writestr, mbind at 1, M_bind, bind.
    destruct (image_open file) as [img|msg].
    + destruct (qpic_of table (arg_raw_color_mode args) file img)
        as [qpic info] eqn:Hq.
      pose proof (log_then_append_detail args file
                    (LumpEntry info (QpicData qpic)) w) as Heff.
      destruct ((log args _;; wad_append write_error _) w) as [w' [[]|x]].
      * destruct Heff as (_ & h & Hh).
        exists (LumpEntry info (QpicData qpic)), h.
        split; [|done]. exists img. by rewrite Hq.
      * by destruct Heff as (Hx & He & Hq').
    + split; [done|]. by split; [exists msg|].
  - unfold try_except, add_miptex, open_image, wad_writestr,
      mbind at 1, M_bind, bind.
    destruct (image_open file) as [img|msg].
    + destruct (miptex_of table (arg_raw_color_mode args)
                  (arg_smooth_mip args) (arg_smart_mip args) file img)
        as [mip info] eqn:Hm.
      pose proof (log_then_append_detail args file
                    (LumpEntry info (MiptexData mip)) w) as Heff.
      destruct ((log args _;; wad_append write_error _) w) as [w' [[]|x]].
      * destruct Heff as (_ & h & Hh).
        exists (LumpEntry info (MiptexData mip)), h.
        split; [|done]. exists img. by rewrite Hm.
      * destruct Heff as (Hx & He & Hq'). simpl.
        split; [done|]. split; [done|].
        exists (exn_message x). by rewrite He.
    + simpl. split; [done|]. split; [done|]. by exists msg.
Qed.

End RunFacts.

Lemma progress_cons (args : Args) (file : string) (files : list string) :
  progress args (file :: files) = progress args [file] ++ progress args files.
Proof. unfold progress. by destruct (arg_quiet args). Qed.

Lemma progress_quiet (args : Args) (files : list string) :
  arg_quiet args = true -> progress args files = [].
Proof. unfold progress. by intros ->. Qed.

Lemma wad_close_handle (w : World) : handle (wad_close w) = None.
Proof. unfold wad_close. by destruct (handle w) eqn:Hh. Qed.

Lemma wad_close_streams (w : World) :
  stdout (wad_close w) = stdout w /\ stderr (wad_close w) = stderr w.
Proof. unfold wad_close. by destruct (handle w). Qed.

Section LoopFacts.

Context {B : Imaging}.

Variable table : list Palette.rgb.
Variable image_open : string -> Picture + string.
Variable write_error : entry -> option string.
Variable parser_status : Z.

(** The loop in full: on success the entries of the inputs, in their
    order, and the lines printed; on failure the way it failed. *)
Lemma for_each_detail (args : Args) (l : list string) (w : World) (h : Wad) :
  handle w = Some h ->
  match
    for_each (process_file table image_open write_error parser_status args)
             l w
  with
  | (w', Ok _) =>
      exists es,
        Forall2 (entry_from table image_open args) l es /\
        handle w' = Some (mkWad (wad_path h) (wad_dir h ++ es)) /\
        stdout w' = stdout w ++ progress args l /\
        stderr w' = stderr w /\ fs_files w' = fs_files w
  | (w', Raise x) =>
      (arg_quiet args = true -> stdout w' = stdout w) /\
      match arg_type args with
      | MIPTEX =>
          x = SystemExit parser_status /\
          exists msg, stderr w' = stderr w ++ [msg]
      | _ => (exists msg, x = Exception msg) /\ stderr w' = stderr w
      end
  end.
Proof.
  revert w h. induction l as [|file l IH]; intros w h Hh; simpl.
  - exists []. split; [constructor|].
    rewrite !app_nil_r. unfold progress.
    destruct (arg_quiet args); simpl; rewrite ?app_nil_r; by destruct h.
  - unfold mbind, M_bind, bind.
    pose proof (process_file_detail table image_open write_error
                  parser_status args file w) as Hstep.
    destruct (process_file _ _ _ _ args file w) as [w1 [[]|x]]; [|done].
    destruct Hstep as (e & h' & Hentry & Hh' & Hh1 & Ho1 & He1 & Hf1).
    rewrite Hh in Hh'. injection Hh' as <-.
    specialize (IH w1 _ Hh1). simpl in IH.
    destruct (for_each _ l w1) as [w2 [[]|x]].
    + destruct IH as (es & Hall & Hh2 & Ho2 & He2 & Hf2).
      exists (e :: es). rewrite <- app_assoc in Hh2.
      split; [by constructor|]. split; [exact Hh2|].
      rewrite progress_cons, app_assoc, <- Ho1.
      split; [done|]. split; congruence.
    + destruct IH as [Hquiet Hkind]. split.
      * intros Hq. rewrite (Hquiet Hq), Ho1, (progress_quiet _ _ Hq).
        by rewrite app_nil_r.
      * destruct (arg_type args); by rewrite <- He1.
Qed.

End LoopFacts.

(** C9. Once the archive is open, the run ends in one of two ways. When
    every input is processed, the status is 0 and the archive is closed
    with one more entry per input. When an input fails, it is the first
    to fail: the inputs before it have each added their entry, nothing is
    done for the inputs after it, the archive is closed with exactly the
    entries added so far in its directory, one message is written to the
    error stream and the status is not zero. The entries [es] are those
    the open archive holds when the loop ends, one for each input
    processed, in the order of the inputs. *)
Theorem failure_is_fatal_and_archive_is_closed `{B : Imaging}
  (table : list Palette.rgb) (image_open : string -> Picture + string)
  (write_error : entry -> option string) (parser_status : Z)
  (args : Args) (w0 w1 w2 : World) (mode : filemode) :
  parser_status <> 0%Z ->
  arg_list args <> [] ->
  choose_filemode args w0 = (w1, Ok mode) ->
  wad_open (arg_file args) mode w1 = (w2, Ok tt) ->
  let process :=
    process_file table image_open write_error parser_status args in
  let wl :=
    (log args ("Archive: " +:+ Path.basename (arg_file args)) w2).1 in
  let wf :=
    (run (main table image_open write_error parser_status args) w0).1 in
  let status :=
    (run (main table image_open write_error parser_status args) w0).2 in
  exists dir0 es,
    fs_files w2 !! arg_file args = Some (Archive dir0) /\
    handle w2 = Some (mkWad (arg_file args) dir0) /\
    handle wf = None /\
    fs_files wf = <[arg_file args := Archive (dir0 ++ es)]> (fs_files w2) /\
    match for_each process (arg_list args) wl with
    | (w3, Ok _) =>
        status = 0%Z /\
        handle w3 = Some (mkWad (arg_file args) (dir0 ++ es)) /\
        Forall2 (entry_from table image_open args) (arg_list args) es /\
        length es = length (arg_list args) /\
        stdout wf = stdout w3 /\ stderr wf = stderr w0
    | (w3, Raise x) =>
        status <> 0%Z /\
        (exists msg, stderr wf = stderr w0 ++ [msg]) /\
        stdout wf = stdout w3 /\
        handle w3 = Some (mkWad (arg_file args) (dir0 ++ es)) /\
        exists pre file post wp,
          arg_list args = pre ++ file :: post /\
          Forall2 (entry_from table image_open args) pre es /\
          length es = length pre /\
          for_each process pre wl = (wp, Ok tt) /\
          process file wp = (w3, Raise x)
    end.
Proof.
  intros Hstatus Hlist Hmode Hopen process wl wf status.
  destruct (choose_filemode_keeps _ _ _ _ Hmode) as (Hf1 & Hh1 & Ho1 & He1).
  destruct (wad_open_opens _ _ _ _ Hopen)
    as (dir0 & Hh2 & Hf2 & Hd2 & Ho2 & He2).
  destruct (log_effect args ("Archive: " +:+ Path.basename (arg_file args)) w2)
    as [out Hlog].
  assert (handle wl = Some (mkWad (arg_file args) dir0) /\
          fs_files wl = fs_files w2 /\ stderr wl = stderr w2)
    as (Hhl & Hfl & Hel) by (unfold wl; by rewrite Hlog).
  assert (main table image_open write_error parser_status args w0
          = let '(w3, r) := for_each process (arg_list args) wl in
            match r with
            | Ok _ => (wad_close w3, Raise (SystemExit 0))
            | Raise x => (wad_close w3, Raise x)
            end) as Hmain.
  { rewrite main_stages.
    destruct (arg_list args) as [|file files] eqn:Hargs; [done|].
    rewrite Hmode, Hopen. fold process. fold wl.
    destruct (for_each process (file :: files) wl) as [w3 [[]|x]];
      reflexivity. }
  pose proof (for_each_process table image_open write_error parser_status
                args (arg_list args) wl _ Hhl) as Hloop.
  pose proof (for_each_detail table image_open write_error parser_status
                args (arg_list args) wl _ Hhl) as Hdetail.
  fold process in Hloop, Hdetail.
  unfold wf, status, run. rewrite Hmain. clear Hmain.
  destruct (for_each process (arg_list args) wl) as [w3 [[]|x]].
  - destruct Hloop as (es & Hlen & Hh3 & Hf3 & Hd3 & He3).
    destruct Hdetail as (es' & Hall & Hh3' & _).
    simpl in Hh3, Hh3'.
    assert (es' = es) as ->.
    { rewrite Hh3 in Hh3'. injection Hh3' as Heq.
      by apply app_inv_head in Heq. }
    exists dir0, es. simpl. unfold wad_close. rewrite Hh3. simpl.
    repeat split; try done; congruence.
  - clear Hdetail.
    destruct Hloop as (pre & file & post & wp & es & Hl & Hpre & Hfile & Hlen
                       & Hh3 & Hf3 & Hd3 & Hfail).
    simpl in Hh3.
    pose proof (for_each_detail table image_open write_error parser_status
                  args pre wl _ Hhl) as Hdetail.
    fold process in Hdetail. rewrite Hpre in Hdetail.
    destruct Hdetail as (es' & Hall & Hhp & _). simpl in Hhp.
    pose proof (process_file_effect table image_open write_error
                  parser_status args file wp) as Hstep.
    fold process in Hstep. rewrite Hfile in Hstep.
    destruct Hstep as [[Hsame _] _].
    assert (es' = es) as ->.
    { rewrite Hsame, Hhp in Hh3. injection Hh3 as Heq.
      by apply app_inv_head in Heq. }
    exists dir0, es.
    assert (handle (wad_close w3) = None /\
            fs_files (wad_close w3)
            = <[arg_file args := Archive (dir0 ++ es)]> (fs_files w2) /\
            stdout (wad_close w3) = stdout w3 /\
            stderr (wad_close w3) = stderr w3) as (Hc1 & Hc2 & Hc3 & Hc4).
    { unfold wad_close. rewrite Hh3. simpl. repeat split. congruence. }
    destruct Hfail as [[-> [msg Hmsg]]|[[msg ->] Herr]]; simpl.
    + repeat split; try done.
      * exists msg. congruence.
      * by exists pre, file, post, wp.
    + repeat split; try done.
      * exists ("Traceback: " +:+ msg). congruence.
      * by exists pre, file, post, wp.
Qed.

Lemma failure_is_fatal_and_archive_is_closed_witness :
  let B := Reference.imaging in
  let args := Scenario.args ["a.png"; "bad.png"; "c.png"]%string in
  let process :=
    process_file Reference.grey_table Scenario.image_open
                 Scenario.write_error Scenario.parser_status args in
  let wl :=
    (log args ("Archive: " +:+ Path.basename (arg_file args))
         Scenario.world_opened).1 in
  let wf := (Scenario.run_command (arg_list args)).1 in
  let status := (Scenario.run_command (arg_list args)).2 in
  exists dir0 es,
    fs_files Scenario.world_opened !! arg_file args = Some (Archive dir0) /\
    handle Scenario.world_opened = Some (mkWad (arg_file args) dir0) /\
    handle wf = None /\
    fs_files wf
    = <[arg_file args := Archive (dir0 ++ es)]>
        (fs_files Scenario.world_opened) /\
    match for_each process (arg_list args) wl with
    | (w3, Ok _) =>
        status = 0%Z /\
        handle w3 = Some (mkWad (arg_file args) (dir0 ++ es)) /\
        Forall2 (entry_from Reference.grey_table Scenario.image_open args)
                (arg_list args) es /\
        length es = length (arg_list args) /\
        stdout wf = stdout w3 /\ stderr wf = stderr Scenario.empty_world
    | (w3, Raise x) =>
        status <> 0%Z /\
        (exists msg, stderr wf = stderr Scenario.empty_world ++ [msg]) /\
        stdout wf = stdout w3 /\
        handle w3 = Some (mkWad (arg_file args) (dir0 ++ es)) /\
        exists pre file post wp,
          arg_list args = pre ++ file :: post /\
          Forall2 (entry_from Reference.grey_table Scenario.image_open args)
                  pre es /\
          length es = length pre /\
          for_each process pre wl = (wp, Ok tt) /\
          process file wp = (w3, Raise x)
    end.
Proof.
  intros B args.
  apply (failure_is_fatal_and_archive_is_closed (B := Reference.imaging)
           Reference.grey_table Scenario.image_open Scenario.write_error
           Scenario.parser_status
           args Scenario.empty_world Scenario.world_with_dir
           Scenario.world_opened mode_w).
  - discriminate.
  - discriminate.
  - vm_compute. reflexivity.
  - vm_compute. reflexivity.
Defined.

(** X8. With [--quiet] the command prints none of its progress lines: a
    run with inputs that does not end in [parser.error] leaves the output
    stream as it was at the start, whether it adds every input or ends in
    an exception nobody catches. *)
Theorem quiet_run_prints_nothing `{B : Imaging}
  (table : list Palette.rgb) (image_open : string -> Picture + string)
  (write_error : entry -> option string) (parser_status : Z)
  (args : Args) (w0 : World) :
  arg_quiet args = true ->
  arg_list args <> [] ->
  (arg_type args = MIPTEX ->
   (run (main table image_open write_error parser_status args) w0).2
   <> parser_status) ->
  stdout (run (main table image_open write_error parser_status args) w0).1
  = stdout w0.
Proof.
  intros Hquiet Hlist. unfold run. rewrite main_stages.
  destruct (arg_list args) as [|file files] eqn:Hargs; [done|].
  pose proof (choose_filemode_cases args w0) as Hmode.
  destruct (choose_filemode args w0) as [w1 [mode|x]].
  - destruct Hmode as (_ & _ & _ & Ho1 & _).
    pose proof (wad_open_cases (arg_file args) mode w1) as Hopen.
    destruct (wad_open (arg_file args) mode w1) as [w2 [[]|x]].
    + destruct Hopen as (d & Hh2 & Ho2 & _ & _).
      assert ((log args ("Archive: " +:+ Path.basename (arg_file args)) w2).1
              = w2) as -> by (unfold log; by rewrite Hquiet).
      pose proof (for_each_detail table image_open write_error parser_status
                    args (file :: files) w2 _ Hh2) as Hloop.
      destruct (for_each _ (file :: files) w2) as [w3 [[]|x]].
      * intros _. destruct Hloop as (es & _ & _ & Ho3 & _).
        rewrite (progress_quiet _ _ Hquiet), app_nil_r in Ho3.
        cbn [fst]. destruct (wad_close_streams w3) as [-> _]. congruence.
      * destruct Hloop as [Ho3 Hkind]. specialize (Ho3 Hquiet).
        destruct (wad_close_streams w3) as [Hc _].
        destruct (arg_type args).
        -- intros _. destruct Hkind as [[msg ->] _].
           cbn [fst stdout]. congruence.
        -- intros _. destruct Hkind as [[msg ->] _].
           cbn [fst stdout]. congruence.
        -- destruct Hkind as [-> _]. cbn [snd]. intros Hnot.
           by destruct (Hnot eq_refl).
    + intros _. destruct Hopen as [-> [msg ->]]. by cbn.
  - intros _. destruct Hmode as [-> [msg ->]]. by cbn.
Qed.

(** A quiet run over pictures of which the second is no image: the
    exception of [Image.open] is not caught, and nothing is printed. *)
Lemma quiet_run_prints_nothing_witness :
  let B := Reference.imaging in
  let args := {| arg_file := "out/gfx.wad";
                 arg_list := ["a.png"; "bad.png"]%string;
                 arg_type := QPIC; arg_raw_color_mode := true;
                 arg_smooth_mip := false; arg_smart_mip := false;
                 arg_quiet := true |} in
  (arg_quiet args = true /\ arg_list args <> []) /\
  stdout (run (main Reference.grey_table Scenario.image_open
                 Scenario.write_error Scenario.parser_status args)
              Scenario.empty_world).1
  = stdout Scenario.empty_world.
Proof.
  intros B args. split; [split; [reflexivity | discriminate]|].
  apply (quiet_run_prints_nothing (B := Reference.imaging));
    [reflexivity | discriminate | discriminate].
Defined.

(** What a run with status 0 has done. *)
Lemma successful_run `{B : Imaging}
  (table : list Palette.rgb) (image_open : string -> Picture + string)
  (write_error : entry -> option string) (parser_status : Z)
  (args : Args) (w0 : World) :
  parser_status <> 0%Z ->
  (run (main table image_open write_error parser_status args) w0).2 = 0%Z ->
  let wf :=
    (run (main table image_open write_error parser_status args) w0).1 in
  arg_list args <> [] /\
  exists d es,
    (fs_files w0 !! arg_file args = Some (Archive d) \/
     fs_files w0 !! arg_file args = None /\ d = []) /\
    Forall2 (entry_from table image_open args) (arg_list args) es /\
    fs_files wf = <[arg_file args := Archive (d ++ es)]> (fs_files w0) /\
    handle wf = None /\
    stdout wf
    = stdout w0
      ++ (if arg_quiet args then []
          else ["Archive: " +:+ Path.basename (arg_file args)])
      ++ progress args (arg_list args) /\
    stderr wf = stderr w0.
Proof.
  intros Hstatus. unfold run. rewrite main_stages.
  destruct (arg_list args) as [|file files] eqn:Hargs; [done|].
  pose proof (choose_filemode_cases args w0) as Hmode.
  destruct (choose_filemode args w0) as [w1 [mode|x]];
    [|by destruct Hmode as [-> [msg ->]]].
  destruct Hmode as (Hm & Hf1 & Hh1 & Ho1 & He1).
  pose proof (wad_open_cases (arg_file args) mode w1) as Hopen.
  destruct (wad_open (arg_file args) mode w1) as [w2 [[]|x]];
    [|by destruct Hopen as [-> [msg ->]]].
  destruct Hopen as (d & Hh2 & Ho2 & He2 & Hfiles).
  destruct (log_effect args
              ("Archive: " +:+ Path.basename (arg_file args)) w2)
    as [out Hlog].
  assert (out = stdout w2
                ++ (if arg_quiet args then []
                    else ["Archive: " +:+ Path.basename (arg_file args)]))
    as Hout.
  { apply (f_equal (fun r => stdout r.1)) in Hlog. revert Hlog.
    unfold log. destruct (arg_quiet args); simpl; intros <-; [|done].
    by rewrite app_nil_r. }
  rewrite Hlog. cbn [fst].
  match goal with |- context [for_each ?f ?l ?w] =>
    pose proof (for_each_detail table image_open write_error parser_status
                  args l w _ Hh2) as Hloop;
    destruct (for_each f l w) as [w3 [[]|x]]
  end.
  - intros _. split; [done|].
    destruct Hloop as (es & Hall & Hh3 & Ho3 & He3 & Hf3).
    simpl in Ho3, He3, Hf3, Hh3.
    assert (fs_files w0 !! arg_file args = Some (Archive d) \/
            fs_files w0 !! arg_file args = None /\ d = []) as Hbefore.
    { destruct mode.
      - left. destruct Hfiles as [Hd _]. by rewrite <- Hf1.
      - right. destruct Hfiles as [-> _]. split; [|done].
        destruct (fs_files w0 !! arg_file args) eqn:Hlook; [|done].
        by rewrite bool_decide_eq_true_2 in Hm. }
    exists d, es. split; [done|]. split; [done|].
    cbn [fst]. unfold wad_close. rewrite Hh3. simpl.
    split; [|split; [done|split]].
    + rewrite Hf3. destruct mode.
      * destruct Hfiles as [_ ->]. by rewrite Hf1.
      * destruct Hfiles as [-> ->]. by rewrite insert_insert_eq, Hf1.
    + rewrite Ho3, Hout, Ho2, Ho1. by rewrite <- app_assoc.
    + congruence.
  - destruct Hloop as [_ Hkind]. intros Hzero. exfalso.
    destruct (arg_type args).
    + by destruct Hkind as [[msg ->] _].
    + by destruct Hkind as [[msg ->] _].
    + destruct Hkind as [-> _]. by cbn in Hzero.
Qed.

(** X9. A run that ends with status 0 has added every input: the archive
    is closed and holds what it held before (nothing, when it is new),
    followed by one entry for each input, in the order of the inputs, each
    the entry lines 141-225 make for its file; the output has the line of
    the archive and one line for each input unless the run is quiet, and
    the error stream is as it was. *)
Theorem status_zero_means_all_added `{B : Imaging}
  (table : list Palette.rgb) (image_open : string -> Picture + string)
  (write_error : entry -> option string) (parser_status : Z)
  (args : Args) (w0 : World) :
  parser_status <> 0%Z ->
  (run (main table image_open write_error parser_status args) w0).2 = 0%Z ->
  let wf :=
    (run (main table image_open write_error parser_status args) w0).1 in
  arg_list args <> [] /\
  exists d es,
    (fs_files w0 !! arg_file args = Some (Archive d) \/
     fs_files w0 !! arg_file args = None /\ d = []) /\
    Forall2 (entry_from table image_open args) (arg_list args) es /\
    fs_files wf = <[arg_file args := Archive (d ++ es)]> (fs_files w0) /\
    handle wf = None /\
    stdout wf
    = stdout w0
      ++ (if arg_quiet args then []
          else ["Archive: " +:+ Path.basename (arg_file args)])
      ++ progress args (arg_list args) /\
    stderr wf = stderr w0.
Proof.
  intros Hstatus Hzero.
  exact (successful_run table image_open write_error parser_status args w0
           Hstatus Hzero).
Qed.

Lemma status_zero_means_all_added_witness :
  let B := Reference.imaging in
  let args := Scenario.args ["a.png"; "c.png"]%string in
  let wf := (Scenario.run_command ["a.png"; "c.png"]%string).1 in
  (Scenario.parser_status <> 0%Z /\
   (Scenario.run_command ["a.png"; "c.png"]%string).2 = 0%Z) /\
  arg_list args <> [] /\
  exists d es,
    (fs_files Scenario.empty_world !! arg_file args = Some (Archive d) \/
     fs_files Scenario.empty_world !! arg_file args = None /\ d = []) /\
    Forall2 (entry_from Reference.grey_table Scenario.image_open args)
            (arg_list args) es /\
    fs_files wf
    = <[arg_file args := Archive (d ++ es)]>
        (fs_files Scenario.empty_world) /\
    handle wf = None /\
    stdout wf
    = stdout Scenario.empty_world
      ++ (if arg_quiet args then []
          else ["Archive: " +:+ Path.basename (arg_file args)])
      ++ progress args (arg_list args) /\
    stderr wf = stderr Scenario.empty_world.
Proof.
  intros B args wf.
  assert ((Scenario.run_command ["a.png"; "c.png"]%string).2 = 0%Z) as Hzero
    by (vm_compute; reflexivity).
  split; [split; [discriminate | exact Hzero]|].
  apply (status_zero_means_all_added (B := Reference.imaging)
           Reference.grey_table Scenario.image_open Scenario.write_error
           Scenario.parser_status args Scenario.empty_world);
    [discriminate | exact Hzero].
Defined.

Lemma run_files (m : M unit) (w : World) :
  fs_files (run m w).1 = fs_files (m w).1.
Proof. unfold run. by destruct (m w) as [w' [[]|[msg|code]]]. Qed.

(** X10. A run changes no file but the archive, and loses nothing of an
    archive it finds: every other path holds at the end what it held at
    the start, and an archive found at the archive path keeps its
    directory as the beginning of the new one, to which at most one entry
    for each input is added, however the run ends. *)
Theorem run_touches_archive_only `{B : Imaging}
  (table : list Palette.rgb) (image_open : string -> Picture + string)
  (write_error : entry -> option string) (parser_status : Z)
  (args : Args) (w0 : World) :
  let wf :=
    (run (main table image_open write_error parser_status args) w0).1 in
  (forall p, p <> arg_file args -> fs_files wf !! p = fs_files w0 !! p) /\
  (forall d,
     fs_files w0 !! arg_file args = Some (Archive d) ->
     exists es,
       fs_files wf !! arg_file args = Some (Archive (d ++ es)) /\
       length es <= length (arg_list args)).
Proof.
  intros wf. unfold wf. rewrite run_files, main_stages.
  destruct (arg_list args) as [|file files] eqn:Hargs.
  { simpl. split; [done|].
    intros d Hd. exists []. by rewrite app_nil_r. }
  pose proof (choose_filemode_cases args w0) as Hmode.
  destruct (choose_filemode args w0) as [w1 [mode|x]].
  2:{ destruct Hmode as [-> _]. simpl. split; [done|].
      intros d Hd. exists []. rewrite app_nil_r. split; [done|simpl; lia]. }
  destruct Hmode as (Hm & Hf1 & Hh1 & Ho1 & He1).
  pose proof (wad_open_cases (arg_file args) mode w1) as Hopen.
  destruct (wad_open (arg_file args) mode w1) as [w2 [[]|x]].
  2:{ destruct Hopen as [-> _]. simpl. rewrite Hf1. split; [done|].
      intros d Hd. exists []. rewrite app_nil_r. split; [done|simpl; lia]. }
  destruct Hopen as (d0 & Hh2 & Ho2 & He2 & Hfiles).
  destruct (log_effect args
              ("Archive: " +:+ Path.basename (arg_file args)) w2)
    as [out Hlog].
  rewrite Hlog. cbn [fst].
  match goal with |- context [for_each ?f ?l ?w] =>
    pose proof (for_each_process table image_open write_error parser_status
                  args l w _ Hh2) as Hloop;
    destruct (for_each f l w) as [w3 [[]|x]]
  end.
  - destruct Hloop as (es & Hlen & Hh3 & Hf3 & _).
    simpl in Hh3, Hf3. cbn [fst]. unfold wad_close. rewrite Hh3. simpl.
    rewrite Hf3. split.
    + intros p Hp. rewrite lookup_insert_ne by done.
      destruct mode.
      * destruct Hfiles as [_ ->]. by rewrite Hf1.
      * destruct Hfiles as [_ ->]. rewrite lookup_insert_ne by done.
        by rewrite Hf1.
    + intros d Hd. exists es. rewrite lookup_insert_eq.
      split; [|simpl in *; lia]. destruct mode.
      * destruct Hfiles as [Hd0 _]. rewrite Hf1, Hd in Hd0.
        by injection Hd0 as ->.
      * rewrite Hd in Hm. by rewrite bool_decide_eq_true_2 in Hm.
  - destruct Hloop as (pre & f & post & wp & es & Hl & _ & _ & Hlen & Hh3
                       & Hf3 & _).
    simpl in Hh3, Hf3. cbn [fst]. unfold wad_close. rewrite Hh3. simpl.
    rewrite Hf3.
    assert (length es <= length (file :: files)) as Hle
      by (rewrite Hl, length_app; simpl; lia).
    split.
    + intros p Hp. rewrite lookup_insert_ne by done.
      destruct mode.
      * destruct Hfiles as [_ ->]. by rewrite Hf1.
      * destruct Hfiles as [_ ->]. rewrite lookup_insert_ne by done.
        by rewrite Hf1.
    + intros d Hd. exists es. rewrite lookup_insert_eq.
      split; [|done]. destruct mode.
      * destruct Hfiles as [Hd0 _]. rewrite Hf1, Hd in Hd0.
        by injection Hd0 as ->.
      * rewrite Hd in Hm. by rewrite bool_decide_eq_true_2 in Hm.
Qed.



(** ** Names are plain *)

Section PlainNames.

Import Path.

Lemma rfind_from_suffix (c : ascii) (s : string) (i found : Z) :
  (rfind_from c s i found = found /\
   forall a, a ∈ list_ascii_of_string s -> a <> c) \/
  exists k : nat,
    rfind_from c s i found = (i + Z.of_nat k)%Z /\
    forall a, a ∈ list_ascii_of_string (str_drop (S k) s) -> a <> c.
Proof.
  revert i found. induction s as [|b r IH]; intros i found; simpl.
  - left. split; [done|]. intros a Ha. by apply elem_of_nil in Ha.
  - destruct (IH (i + 1)%Z (if Ascii.eqb b c then i else found))
      as [[Hr Hfree]|(k & Hr & Hfree)].
    + destruct (Ascii.eqb_spec b c) as [->|Hne].
      * right. exists 0. split; [lia|]. by destruct r.
      * left. split; [done|]. intros a [->|Ha]%elem_of_cons; auto.
    + right. exists (S k). split; [lia|done].
Qed.

Lemma basename_no_sep (p : string) (a : ascii) :
  a ∈ list_ascii_of_string (basename p) -> a <> sep.
Proof.
  unfold basename, rfind.
  destruct (rfind_from_suffix sep p 0 (-1)) as [[-> Hfree]|(k & -> & Hfree)].
  - change (Z.to_nat (-1 + 1)) with 0.
    replace (str_drop 0 p) with p by (by destruct p). apply Hfree.
  - replace (Z.to_nat (0 + Z.of_nat k + 1)) with (S k) by lia. apply Hfree.
Qed.

Lemma list_ascii_of_append (s t : string) :
  list_ascii_of_string (s +:+ t)
  = list_ascii_of_string s ++ list_ascii_of_string t.
Proof.
  induction s as [|a s IH]; [done|].
  rewrite append_cons. simpl. by rewrite IH.
Qed.

End PlainNames.

(** X13. The name of an entry is plain: whatever the path of the input,
    the name made from it holds neither a ['/'] nor a ['.']. *)
Theorem lump_name_is_plain (file : string) (a : ascii) :
  a ∈ list_ascii_of_string (Path.lump_name file) ->
  a <> Path.sep /\ a <> Path.extsep.
Proof.
  intros Ha. unfold Path.lump_name in *.
  destruct (split_head (Path.basename file)) as [Hfree (rest & Hbase & _)].
  split; [|by apply Hfree].
  apply (basename_no_sep file). rewrite Hbase, list_ascii_of_append.
  apply elem_of_app. by left.
Qed.

Lemma lump_name_is_plain_witness :
  "w"%char ∈ list_ascii_of_string (Path.lump_name "a.b/c.d/wall.01.png") /\
  "w"%char <> Path.sep /\ "w"%char <> Path.extsep.
Proof.
  assert ("w"%char
          ∈ list_ascii_of_string (Path.lump_name "a.b/c.d/wall.01.png"))
    as Hin by (vm_compute; apply list_elem_of_here).
  split; [exact Hin|].
  exact (lump_name_is_plain "a.b/c.d/wall.01.png" "w"%char Hin).
Defined.

(** X14. Runs on one archive add up: when a run ends with status 0 and a
    second run on the same archive path, started where the first ended,
    ends with status 0 too, the archive holds what it held at the start,
    then the entries of the first run, then those of the second. *)
Theorem two_runs_append `{B : Imaging}
  (table : list Palette.rgb) (image_open : string -> Picture + string)
  (write_error : entry -> option string) (parser_status : Z)
  (args1 args2 : Args) (w0 : World) :
  parser_status <> 0%Z ->
  arg_file args2 = arg_file args1 ->
  let r1 := run (main table image_open write_error parser_status args1) w0 in
  let r2 :=
    run (main table image_open write_error parser_status args2) r1.1 in
  r1.2 = 0%Z -> r2.2 = 0%Z ->
  exists d es1 es2,
    (fs_files w0 !! arg_file args1 = Some (Archive d) \/
     fs_files w0 !! arg_file args1 = None /\ d = []) /\
    Forall2 (entry_from table image_open args1) (arg_list args1) es1 /\
    Forall2 (entry_from table image_open args2) (arg_list args2) es2 /\
    fs_files r2.1
    = <[arg_file args1 := Archive (d ++ es1 ++ es2)]> (fs_files w0).
Proof.
  intros Hstatus Hfile r1 r2 Hzero1 Hzero2.
  destruct (successful_run table image_open write_error parser_status
              args1 w0 Hstatus Hzero1)
    as (_ & d & es1 & Hd & Hes1 & Hf1 & _).
  destruct (successful_run table image_open write_error parser_status
              args2 r1.1 Hstatus Hzero2)
    as (_ & d' & es2 & Hd' & Hes2 & Hf2 & _).
  fold r1 in Hf1. fold r2 in Hf2. rewrite Hfile in Hd', Hf2.
  rewrite Hf1, lookup_insert_eq in Hd'.
  destruct Hd' as [[= <-]|[? _]]; [|done].
  exists d, es1, es2. split; [done|]. split; [done|]. split; [done|].
  by rewrite Hf2, Hf1, insert_insert_eq, <- app_assoc.
Qed.

Lemma two_runs_append_witness :
  let B := Reference.imaging in
  let args1 := Scenario.args ["a.png"%string] in
  let args2 := Scenario.args ["c.png"%string] in
  let r1 := Scenario.run_command ["a.png"%string] in
  let r2 :=
    run (main Reference.grey_table Scenario.image_open Scenario.write_error
              Scenario.parser_status args2) r1.1 in
  (Scenario.parser_status <> 0%Z /\ arg_file args2 = arg_file args1 /\
   r1.2 = 0%Z /\ r2.2 = 0%Z) /\
  exists d es1 es2,
    (fs_files Scenario.empty_world !! arg_file args1 = Some (Archive d) \/
     fs_files Scenario.empty_world !! arg_file args1 = None /\ d = []) /\
    Forall2 (entry_from Reference.grey_table Scenario.image_open args1)
            (arg_list args1) es1 /\
    Forall2 (entry_from Reference.grey_table Scenario.image_open args2)
            (arg_list args2) es2 /\
    fs_files r2.1
    = <[arg_file args1 := Archive (d ++ es1 ++ es2)]>
        (fs_files Scenario.empty_world).
Proof.
  intros B args1 args2 r1 r2.
  assert (r1.2 = 0%Z) as Hzero1 by (vm_compute; reflexivity).
  assert (r2.2 = 0%Z) as Hzero2 by (vm_compute; reflexivity).
  split; [split; [discriminate | split; [reflexivity | by split]]|].
  apply (two_runs_append (B := Reference.imaging)
           Reference.grey_table Scenario.image_open Scenario.write_error
           Scenario.parser_status args1 args2 Scenario.empty_world);
    [discriminate | reflexivity | exact Hzero1 | exact Hzero2].
Defined.
